(** * Fix-your-grammar: the correction pipeline of [app.js]

    A shallow embedding of the three functions of [app.js] that make up the
    correction pipeline, and the properties of them stated in the
    specification:

    - [correctWithLanguageTool]: the call to the LanguageTool service, the
      splicing of its matches into the text and the classification of a
      failed call;
    - [enhancedFallbackCorrections]: the local rule table, the punctuation
      passes and the capitalisation pass, every one of them a
      [String.prototype.replace] with a global regular expression;
    - the handler of [POST /correct], which validates the text, tries the
      service and falls back to the local corrector.

    JavaScript strings are sequences of UTF-16 code units: [jsstring] is
    [list N].  Offsets and lengths of matches are JSON numbers, taken here
    as integers ([Z]), negative ones included. *)

From Stdlib Require Import ZArith NArith List Bool Lia String Ascii.
From Stdlib Require Import Permutation Sorted.
Import ListNotations.

Set Implicit Arguments.

(* ================================================================== *)
(** * JavaScript strings *)
(* ================================================================== *)

Definition code_unit := N.
Definition jsstring := list code_unit.

(** Rocq string literals denote the JavaScript strings with the same
    (one-byte) code units. *)
Fixpoint js (s : string) : jsstring :=
  match s with
  | EmptyString => []
  | String a s' => N_of_ascii a :: js s'
  end.

Definition code_unit_eqb : code_unit -> code_unit -> bool := N.eqb.

Fixpoint jsstring_eqb (a b : jsstring) : bool :=
  match a, b with
  | [], [] => true
  | x :: a', y :: b' => code_unit_eqb x y && jsstring_eqb a' b'
  | _, _ => false
  end.

Module JSString.

(** The relative index of [slice]: a negative index counts from the end,
    and both ends are clamped to the string. *)
Definition clamp_index (len i : Z) : Z :=
  if (i <? 0)%Z then Z.max (len + i) 0 else Z.min i len.

(** [s.slice(start, end)]; [end_ = None] is the one-argument call. *)
Definition slice (s : jsstring) (start : Z) (end_ : option Z) : jsstring :=
  let len := Z.of_nat (List.length s) in
  let from := clamp_index len start in
  let to := match end_ with
            | None => len
            | Some e => clamp_index len e
            end in
  firstn (Z.to_nat (to - from)) (skipn (Z.to_nat from) s).

(** White space and line terminators: the characters [trim] strips and
    the class [\s] matches. *)
Definition is_whitespace (c : code_unit) : bool :=
  ((9 <=? c) && (c <=? 13) || (c =? 32) || (c =? 160) || (c =? 5760)
   || (8192 <=? c) && (c <=? 8202) || (c =? 8232) || (c =? 8233)
   || (c =? 8239) || (c =? 8287) || (c =? 12288) || (c =? 65279))%N.

Fixpoint trimStart (s : jsstring) : jsstring :=
  match s with
  | [] => []
  | c :: s' => if is_whitespace c then trimStart s' else s
  end.

Definition trimEnd (s : jsstring) : jsstring := rev (trimStart (rev s)).

Definition trim (s : jsstring) : jsstring := trimEnd (trimStart s).

(** Case mapping on the ASCII letters.  [toLowerCase] and [toUpperCase]
    are only ever called in [app.js] on text matched by a pattern of
    ASCII letters and apostrophes ([toLowerCase]) or by [[a-z]]
    ([toUpperCase]); code units from 128 on are left as they are. *)
Definition lower_unit (c : code_unit) : code_unit :=
  if ((65 <=? c) && (c <=? 90))%N then (c + 32)%N else c.

Definition upper_unit (c : code_unit) : code_unit :=
  if ((97 <=? c) && (c <=? 122))%N then (c - 32)%N else c.

Definition toLowerCase (s : jsstring) : jsstring := map lower_unit s.
Definition toUpperCase (s : jsstring) : jsstring := map upper_unit s.

End JSString.

(* ================================================================== *)
(** * Completions: a value, or a thrown error object *)
(* ================================================================== *)

(** The error objects the pipeline can see, each with its [message].  An
    axios error carries a [code] and, when the server answered, a
    [response] (here its status); a [TypeError] or a plain [Error] has
    neither property. *)
Inductive thrown : Type :=
| AxiosError (message : jsstring) (code : option jsstring)
             (response : option Z)
| TypeError (message : jsstring)
| Error (message : jsstring).

Definition error_message (e : thrown) : jsstring :=
  match e with
  | AxiosError message _ _ => message
  | TypeError message => message
  | Error message => message
  end.

Inductive completion (A : Type) : Type :=
| Normal (a : A)
| Throw (e : thrown).

Arguments Normal {A} a.
Arguments Throw {A} e.

Definition bind {A B : Type} (m : completion A) (f : A -> completion B)
  : completion B :=
  match m with
  | Normal a => f a
  | Throw e => Throw e
  end.

Notation "x <- m ;; k" := (bind m (fun x => k))
  (at level 61, m at next level, right associativity).

(* ================================================================== *)
(** * The LanguageTool client *)
(* ================================================================== *)

(** One finding of the service.  [replacements] holds the [value] of each
    candidate; a finding without the property takes the same branch of
    [correctWithLanguageTool] as one with an empty array, and is the empty
    list here.  [context] is only logged. *)
Record Match : Type := mkMatch {
  offset : Z;
  length : Z;
  replacements : list jsstring;
  context : option jsstring
}.

(** [Array.prototype.sort] with a comparator is a stable sort; with a
    comparator that is a total preorder every stable sort gives the same
    array, so insertion sort stands for it. *)
Section Sort.
Variable A : Type.
Variable compare : A -> A -> Z.

Fixpoint insert_sorted (x : A) (l : list A) : list A :=
  match l with
  | [] => [x]
  | y :: l' =>
      if (compare x y <=? 0)%Z then x :: l else y :: insert_sorted x l'
  end.

Fixpoint sort (l : list A) : list A :=
  match l with
  | [] => []
  | x :: l' => insert_sorted x (sort l')
  end.
End Sort.

(** The body of the loop [for (const match of matches)]. *)
Definition applyMatch (correctedText : jsstring) (m : Match) : jsstring :=
  match replacements m with
  | [] => correctedText
  | replacement :: _ =>
      let before := JSString.slice correctedText 0 (Some (offset m)) in
      let after := JSString.slice correctedText (offset m + length m)%Z None in
      before ++ replacement ++ after
  end.

(** Lines 40-60: sort the matches by offset, highest first, and apply them
    in that order. *)
Definition applyMatches (text : jsstring) (matches : list Match) : jsstring :=
  let matches := sort (fun a b => (offset b - offset a)%Z) matches in
  fold_left applyMatch matches text.

(** The three messages of the [catch] block. *)
Definition msg_timeout : jsstring :=
  js "LanguageTool service is taking too long to respond. Please try again.".
Definition msg_unavailable : jsstring :=
  js "LanguageTool service is currently unavailable. Please try again later.".
Definition msg_unreachable : jsstring :=
  js "Unable to connect to grammar service. Using basic corrections instead.".

Definition error_code (e : thrown) : option jsstring :=
  match e with
  | AxiosError _ code _ => code
  | _ => None
  end.

Definition error_response (e : thrown) : option Z :=
  match e with
  | AxiosError _ _ response => response
  | _ => None
  end.

(** [error.code === 'ECONNABORTED']. *)
Definition is_ECONNABORTED (code : option jsstring) : bool :=
  match code with
  | Some c => jsstring_eqb c (js "ECONNABORTED")
  | None => false
  end.

(** Truthiness of an optional object. *)
Definition truthy {A : Type} (o : option A) : bool :=
  match o with
  | Some _ => true
  | None => false
  end.

(** The [catch] block of [correctWithLanguageTool]: the message of the
    [Error] thrown on for a caught [error]. *)
Definition classify (error : thrown) : jsstring :=
  if is_ECONNABORTED (error_code error) then msg_timeout
  else if truthy (error_response error) then msg_unavailable
  else msg_unreachable.

(** What [await axios.post(...)] gives: a response, whose body may or may
    not have a [matches] array, or a rejection. *)
Inductive axios_outcome : Type :=
| Resolved (matches : option (list Match))
| Rejected (error : thrown).

(** The process state the pipeline touches: the texts sent to the service
    so far, latest first. *)
Record world : Type := mkWorld { requests : list jsstring }.

Definition io (A : Type) : Type := world -> completion A * world.

Definition ret {A : Type} (a : A) : io A := fun w => (Normal a, w).

Definition throw {A : Type} (e : thrown) : io A := fun w => (Throw e, w).

Definition io_bind {A B : Type} (m : io A) (f : A -> io B) : io B :=
  fun w => match m w with
           | (Normal a, w') => f a w'
           | (Throw e, w') => (Throw e, w')
           end.

Definition try_catch {A : Type} (m : io A) (handler : thrown -> io A) : io A :=
  fun w => match m w with
           | (Normal a, w') => (Normal a, w')
           | (Throw e, w') => handler e w'
           end.

Definition lift {A : Type} (c : completion A) : io A := fun w => (c, w).

Notation "x <~ m ;; k" := (io_bind m (fun x => k))
  (at level 61, m at next level, right associativity).

Section Pipeline.

(** The service, as seen from the process: what a request for a text is
    answered with. *)
Variable service : jsstring -> axios_outcome.

Definition axios_post (text : jsstring) : io (option (list Match)) :=
  fun w =>
    let w' := mkWorld (text :: requests w) in
    match service text with
    | Resolved data => (Normal data, w')
    | Rejected e => (Throw e, w')
    end.

(** [response.data.matches.length] and the loop throw a [TypeError] when
    the body has no [matches]. *)
Definition correctWithLanguageTool (text : jsstring) : io jsstring :=
  try_catch
    (data <~ axios_post text ;;
     match data with
     | None =>
         throw (TypeError
                  (js "Cannot read properties of undefined (reading 'length')"))
     | Some matches => ret (applyMatches text matches)
     end)
    (fun error => throw (Error (classify error))).

End Pipeline.

(* ================================================================== *)
(** * Regular expressions and [String.prototype.replace] *)
(* ================================================================== *)

(** The fragment of the regular expression language the patterns of
    [app.js] are written in, with the backtracking semantics of the
    language definition: a matcher takes a state and a continuation, and an
    alternative or a repetition tries its continuation again when a later
    part of the pattern fails. *)
Module RegExp.

Inductive regex : Type :=
| Empty
| Char (c : code_unit)                 (* a pattern character *)
| Class (member : code_unit -> bool)   (* [\s], [\w], [[...]] *)
| WordBoundary                         (* [\b] *)
| InputStart                           (* [^], no [m] flag *)
| Seq (r1 r2 : regex)
| Alt (r1 r2 : regex)                  (* [r1|r2] *)
| Star (r : regex)                     (* [r*], greedy *)
| Group (n : nat) (r : regex).         (* the [n]-th [( )] *)

(** [r+] *)
Definition Plus (r : regex) : regex := Seq r (Star r).

Fixpoint literal (s : jsstring) : regex :=
  match s with
  | [] => Empty
  | c :: s' => Seq (Char c) (literal s')
  end.

(** A match state: the index reached and the spans of the groups that
    took part. *)
Record state : Type := mkState {
  endIndex : nat;
  captures : nat -> option (nat * nat)
}.

Definition no_captures : nat -> option (nat * nat) := fun _ => None.

Definition set_capture (n : nat) (span : nat * nat)
           (caps : nat -> option (nat * nat)) : nat -> option (nat * nat) :=
  fun k => if Nat.eqb k n then Some span else caps k.

(** [\w] *)
Definition is_word_char (c : code_unit) : bool :=
  ((97 <=? c) && (c <=? 122) || (65 <=? c) && (c <=? 90)
   || (48 <=? c) && (c <=? 57) || (c =? 95))%N.

(** Canonicalize, without the [u] flag: with the [i] flag a character is
    compared by its upper case, and a character from 128 on is never
    mapped below 128.  Every pattern character of [app.js] is below 128,
    so mapping the ASCII letters decides each comparison. *)
Definition canonicalize (ignoreCase : bool) (c : code_unit) : code_unit :=
  if ignoreCase then JSString.upper_unit c else c.

Section Matcher.
Variable input : jsstring.
Variable ignoreCase : bool.

Definition continuation : Type := state -> option state.

Definition advance (x : state) : state :=
  mkState (S (endIndex x)) (captures x).

Definition word_char_at (i : nat) : bool :=
  match nth_error input i with
  | Some c => is_word_char c
  | None => false
  end.

Definition word_char_before (e : nat) : bool :=
  match e with
  | 0 => false
  | S i => word_char_at i
  end.

(** RepeatMatcher for [m*]: one more round of [m], which must end
    further on than it began, and then the rest; the continuation
    [c] when that fails.  [n] bounds the rounds. *)
Section Repeat.
Variable m : state -> continuation -> option state.
Variable c : continuation.

Fixpoint RepeatMatcher (n : nat) (x : state) {struct n}
  : option state :=
  match n with
  | 0 => c x
  | S n' =>
      match m x (fun y => if Nat.eqb (endIndex y) (endIndex x)
                          then None else RepeatMatcher n' y) with
      | Some z => Some z
      | None => c x
      end
  end.
End Repeat.

(** The matcher of a pattern.  In a repetition a round that matches
    the empty string is refused, so each round consumes a character
    and there are at most as many rounds as characters left: that
    many are provided for, and more would change nothing
    ([repeat_bound_enough]).  Classes are compared as they are: they
    occur in [app.js] only in patterns without the [i] flag.  No
    pattern of [app.js] has a group inside a repetition. *)
Fixpoint matcher (r : regex) (x : state) (c : continuation)
  {struct r} : option state :=
  match r with
  | Empty => c x
  | Char ch =>
      match nth_error input (endIndex x) with
      | Some a =>
          if code_unit_eqb (canonicalize ignoreCase a)
                           (canonicalize ignoreCase ch)
          then c (advance x) else None
      | None => None
      end
  | Class member =>
      match nth_error input (endIndex x) with
      | Some a => if member a then c (advance x) else None
      | None => None
      end
  | WordBoundary =>
      if xorb (word_char_before (endIndex x)) (word_char_at (endIndex x))
      then c x else None
  | InputStart =>
      if Nat.eqb (endIndex x) 0 then c x else None
  | Seq r1 r2 => matcher r1 x (fun y => matcher r2 y c)
  | Alt r1 r2 =>
      match matcher r1 x c with
      | Some z => Some z
      | None => matcher r2 x c
      end
  | Star r1 =>
      RepeatMatcher (matcher r1) c (List.length input - endIndex x) x
  | Group n r1 =>
      matcher r1 x
        (fun y => c (mkState (endIndex y)
                       (set_capture n (endIndex x, endIndex y)
                                    (captures y))))
  end.

Variable re : regex.

(** A match attempt at index [i]. *)
Definition match_at (i : nat) : option state :=
  matcher re (mkState i no_captures) Some.

(** RegExpBuiltinExec from [lastIndex]: the first index from there on
    at which the pattern matches, with the match. *)
Fixpoint scan (n i : nat) : option (nat * state) :=
  match match_at i with
  | Some y => Some (i, y)
  | None =>
      match n with
      | 0 => None
      | S n' => scan n' (S i)
      end
  end.

Definition exec (lastIndex : nat) : option (nat * state) :=
  if Nat.ltb (List.length input) lastIndex then None
  else scan (List.length input - lastIndex) lastIndex.

(** The loop of a global [replace] that gathers the matches: after an
    empty match [lastIndex] is moved on by one.  [lastIndex] grows in
    every round and no match starts after the end of the input, so
    there are at most [length input + 1] matches, and a higher bound
    would change nothing ([results_bound_enough]). *)
Fixpoint collect (n lastIndex : nat) : list (nat * state) :=
  match n with
  | 0 => []
  | S n' =>
      match exec lastIndex with
      | None => []
      | Some (i, y) =>
          (i, y) :: collect n' (if Nat.eqb (endIndex y) i
                                then S (endIndex y) else endIndex y)
      end
  end.

Definition results : list (nat * state) :=
  collect (S (S (List.length input))) 0.

Definition substring (from to : nat) : jsstring :=
  firstn (to - from) (skipn from input).

Definition capture_string (y : state) (n : nat) : option jsstring :=
  match captures y n with
  | Some (from, to) => Some (substring from to)
  | None => None
  end.

End Matcher.

(** The second argument of [replace]: a string, in which [$1] to [$9]
    stand for the groups, or a function of the matched text and the
    groups ([None] for [undefined]). *)
Inductive replaceValue : Type :=
| ReplaceString (template : jsstring)
| ReplaceFunction
    (f : jsstring -> (nat -> option jsstring) -> completion jsstring).

(** GetSubstitution, for the templates of [app.js]: [$n] with a digit
    [n] from 1 to 9 that names a group of the pattern is the text of the
    group, the empty string when the group took no part.  (The forms
    [$$], [$&], [$`], [$'] and two-digit references do not occur.) *)
Fixpoint GetSubstitution (caps : nat -> option jsstring)
         (template : jsstring) : jsstring :=
  match template with
  | [] => []
  | c :: t =>
      match t with
      | d :: t' =>
          if ((c =? 36) && (49 <=? d) && (d <=? 57))%N
          then match caps (N.to_nat (d - 48)) with
               | Some s => s
               | None => []
               end ++ GetSubstitution caps t'
          else c :: GetSubstitution caps t
      | [] => [c]
      end
  end.

Definition replacement_for (v : replaceValue) (matched : jsstring)
           (caps : nat -> option jsstring) : completion jsstring :=
  match v with
  | ReplaceString template => Normal (GetSubstitution caps template)
  | ReplaceFunction f => f matched caps
  end.

Section Replace.
Variable re : regex.
Variable ignoreCase : bool.
Variable replaceValue_ : replaceValue.
Variable input : jsstring.

(** The second loop of [replace]: the text between the matches is kept
    and each match gives way to its replacement. *)
Fixpoint build (rs : list (nat * state)) (nextSourcePosition : nat)
         (accumulatedResult : jsstring) : completion jsstring :=
  match rs with
  | [] =>
      Normal (accumulatedResult
                ++ substring input nextSourcePosition (List.length input))
  | (position, y) :: rs' =>
      let matched := substring input position (endIndex y) in
      replacement <- replacement_for replaceValue_ matched
                       (capture_string input y) ;;
      if Nat.leb nextSourcePosition position
      then build rs' (endIndex y)
             (accumulatedResult
                ++ substring input nextSourcePosition position
                ++ replacement)
      else build rs' nextSourcePosition accumulatedResult
  end.

(** [input.replace(new RegExp(re, 'g' or 'gi'), replaceValue)] *)
Definition replace : completion jsstring :=
  build (results input ignoreCase re) 0 [].

End Replace.

End RegExp.

(* ================================================================== *)
(** * The fallback corrector *)
(* ================================================================== *)

Import RegExp.

(** Membership in a bracket class given by its characters. *)
Definition one_of (chars : jsstring) (c : code_unit) : bool :=
  existsb (code_unit_eqb c) chars.

Definition lower_case_letter (c : code_unit) : bool :=
  ((97 <=? c) && (c <=? 122))%N.

Definition word (s : string) : regex := literal (js s).

(** [\bp\b] *)
Definition whole (p : regex) : regex := Seq WordBoundary (Seq p WordBoundary).

(** The function of the rule for their, there and they're. *)
Definition their_there (match_ : jsstring) (_ : nat -> option jsstring)
  : completion jsstring :=
  if jsstring_eqb (JSString.toLowerCase match_) (js "their")
  then Normal (js "their")
  else if jsstring_eqb (JSString.toLowerCase match_) (js "there")
  then Normal (js "there")
  else if jsstring_eqb (JSString.toLowerCase match_) (js "they're")
  then Normal (js "they're")
  else Normal match_.

Definition their_there_pattern : regex :=
  whole (Group 1 (Alt (word "their") (Alt (word "there") (word "they're")))).

(** The object [corrections], in the order of its keys; every pattern is
    compiled with the flags [gi]. *)
Definition corrections : list (regex * replaceValue) :=
  [ (whole (word "i"), ReplaceString (js "I"));
    (whole (word "me and"), ReplaceString (js "and I"));
    (whole (Group 1 (word "alot")), ReplaceString (js "a lot"));
    (Seq WordBoundary
       (Seq (Group 1 (Alt (word "could") (Alt (word "would") (word "should"))))
          (Seq (word " of") WordBoundary)),
     ReplaceString (js "$1 have"));
    (their_there_pattern, ReplaceFunction their_there);
    (whole (Group 1 (Alt (word "goes") (word "goed"))),
     ReplaceString (js "goes"));
    (whole (Group 1 (word "buyed")), ReplaceString (js "bought"));
    (whole (Group 1 (word "runned")), ReplaceString (js "ran"));
    (whole (Group 1 (word "recieve")), ReplaceString (js "receive"));
    (whole (Group 1 (word "seperate")), ReplaceString (js "separate"));
    (whole (Group 1 (word "definately")), ReplaceString (js "definitely"));
    (whole (Group 1 (word "occured")), ReplaceString (js "occurred")) ].

(** The loop over [Object.entries(corrections)]; both branches of its
    [if] make the same call. *)
Fixpoint applyCorrections (entries : list (regex * replaceValue))
         (corrected : jsstring) : completion jsstring :=
  match entries with
  | [] => Normal corrected
  | (pattern, replacement) :: entries' =>
      corrected <- replace pattern true replacement corrected ;;
      applyCorrections entries' corrected
  end.

Definition whitespace : regex := Class JSString.is_whitespace.

(** [/\s+([.,!?])/g] *)
Definition space_before_punctuation : regex :=
  Seq (Plus whitespace) (Group 1 (Class (one_of (js ".,!?")))).

(** [/([.!?])\s*(\w)/g] *)
Definition punctuation_then_word : regex :=
  Seq (Group 1 (Class (one_of (js ".!?"))))
      (Seq (Star whitespace) (Group 2 (Class is_word_char))).

(** [/\s+/g] *)
Definition whitespace_run : regex := Plus whitespace.

(** [/(^\s*|[.!?]\s+)([a-z])/g] *)
Definition sentence_start : regex :=
  Seq (Group 1 (Alt (Seq InputStart (Star whitespace))
                    (Seq (Class (one_of (js ".!?"))) (Plus whitespace))))
      (Group 2 (Class lower_case_letter)).

(** [(match, p1, p2) => p1 + p2.toUpperCase()]: the call of a method on
    [undefined] throws, and [undefined] is added to a string as its
    name. *)
Definition capitalize (_ : jsstring) (groups : nat -> option jsstring)
  : completion jsstring :=
  match groups 2 with
  | None =>
      Throw (TypeError
               (js "Cannot read properties of undefined (reading 'toUpperCase')"))
  | Some p2 =>
      Normal (match groups 1 with
              | Some p1 => p1
              | None => js "undefined"
              end ++ JSString.toUpperCase p2)
  end.

Definition enhancedFallbackCorrections (text : jsstring)
  : completion jsstring :=
  match text with
  | [] => Normal []
  | _ =>
      corrected <- applyCorrections corrections text ;;
      corrected <- replace space_before_punctuation false
                     (ReplaceString (js "$1")) corrected ;;
      corrected <- replace punctuation_then_word false
                     (ReplaceString (js "$1 $2")) corrected ;;
      corrected <- replace whitespace_run false
                     (ReplaceString (js " ")) corrected ;;
      corrected <- replace sentence_start false
                     (ReplaceFunction capitalize) corrected ;;
      Normal (JSString.trim corrected)
  end.

(* ================================================================== *)
(** * The handler of [POST /correct] *)
(* ================================================================== *)

(** The locals handed to [res.render('index', ...)]. *)
Record locals : Type := mkLocals {
  corrected : option jsstring;
  originalText : jsstring;
  hasResult : bool;
  error : option jsstring
}.

Definition isEmpty (s : jsstring) : bool :=
  match s with
  | [] => true
  | _ => false
  end.

(** What [req.body.text] holds once [express.urlencoded({ extended: true })]
    has parsed the form: nothing, a string, or an array or object, which
    the parser builds for a key such as [text[]] or [text[k]] and for a
    key that is given twice. *)
Inductive field : Type :=
| Missing
| Text (s : jsstring)
| Structured.

Section Handler.

Variable service : jsstring -> axios_outcome.

(** [text] is [req.body.text]: [None] when the form has no such
    field. *)
Definition postCorrect (text : option jsstring) : io locals :=
  match text with
  | None =>
      ret (mkLocals None [] false
             (Some (js "Please enter some text to correct.")))
  | Some originalText =>
      if isEmpty originalText || isEmpty (JSString.trim originalText)
      then ret (mkLocals None [] false
                  (Some (js "Please enter some text to correct.")))
      else if (Z.of_nat (List.length originalText) >? 5000)%Z
      then ret (mkLocals None originalText false
                  (Some (js "Text is too long. Please limit to 5000 characters.")))
      else
        try_catch
          (correctedText <~ correctWithLanguageTool service originalText ;;
           ret (mkLocals (Some correctedText) originalText true None))
          (fun error =>
             correctedText <~ lift (enhancedFallbackCorrections originalText) ;;
             ret (mkLocals (Some correctedText) originalText true
                    (Some (error_message error))))
  end.

(** The handler on whatever [req.body.text] holds.  An array or an
    object is truthy and has no method [trim], so for it the call in the
    first test throws, before the [try] block is entered. *)
Definition postCorrectField (text : field) : io locals :=
  match text with
  | Missing => postCorrect None
  | Text originalText => postCorrect (Some originalText)
  | Structured =>
      throw (TypeError (js "originalText.trim is not a function"))
  end.

End Handler.

(* ================================================================== *)
(** * What the specification says of a splice *)
(* ================================================================== *)

(** The invariant of a Match in the data model of the specification: a
    non-negative offset and a positive length, within the text. *)
Definition well_formed (text : jsstring) (m : Match) : Prop :=
  (0 <= offset m /\ 0 < length m
   /\ offset m + length m <= Z.of_nat (List.length text))%Z.

(** Two spans that do not intersect. *)
Definition disjoint (a b : Match) : Prop :=
  (offset a + length a <= offset b \/ offset b + length b <= offset a)%Z.

Definition non_overlapping (ms : list Match) : Prop :=
  ForallOrdPairs disjoint ms.

(** [text[from, to)] *)
Definition segment (text : jsstring) (from to : nat) : jsstring :=
  firstn (to - from) (skipn from text).

Definition span (text : jsstring) (m : Match) : jsstring :=
  segment text (Z.to_nat (offset m)) (Z.to_nat (offset m + length m)).

(** What stands in the place of the span of [m]: the first candidate, or
    the span itself when there is none. *)
Definition patch (text : jsstring) (m : Match) : jsstring :=
  match replacements m with
  | [] => span text m
  | replacement :: _ => replacement
  end.

(** The text from [from] on with the span of every match replaced, for
    matches listed from left to right: the text before the first span as
    it is, the patch of the span, and so on after the span. *)
Fixpoint rewritten (text : jsstring) (from : nat) (ms : list Match)
  : jsstring :=
  match ms with
  | [] => skipn from text
  | m :: ms' =>
      segment text from (Z.to_nat (offset m))
        ++ patch text m
        ++ rewritten text (Z.to_nat (offset m + length m)) ms'
  end.

(** One match lies wholly before the other. *)
Definition before (a b : Match) : Prop :=
  (offset a + length a <= offset b)%Z.

Definition by_offset_descending (a b : Match) : Z := (offset b - offset a)%Z.

(** The order the loop meets non-overlapping matches in: each one lies
    wholly before all those met earlier. *)
Definition right_to_left : list Match -> Prop :=
  StronglySorted (fun a b => before b a).

(** The text from [from] up to [upto] with the spans replaced: the
    intermediate stages of [rewritten]. *)
Fixpoint rewritten_upto (text : jsstring) (from : nat) (ms : list Match)
         (upto : nat) : jsstring :=
  match ms with
  | [] => segment text from upto
  | m :: ms' =>
      segment text from (Z.to_nat (offset m))
        ++ patch text m
        ++ rewritten_upto text (Z.to_nat (offset m + length m)) ms' upto
  end.

(** A validation error of the specification is one of the two early
    returns of the handler, which render the page with no result and a
    message. *)
Definition msg_empty : jsstring := js "Please enter some text to correct.".
Definition msg_too_long : jsstring :=
  js "Text is too long. Please limit to 5000 characters.".

Definition ValidationError (text : jsstring) (r : completion locals) : Prop :=
  r = Normal (mkLocals None [] false (Some msg_empty))
  \/ r = Normal (mkLocals None text false (Some msg_too_long)).

(** How the page tells that the fallback was used: a result together
    with a message. *)
Definition usedFallback (l : locals) : bool :=
  hasResult l && truthy (error l).

(* ================================================================== *)
(** * Notions used in the proofs *)
(* ================================================================== *)

(** A match is a call of the continuation, at a state further on in the
    input. *)
Definition reaches (input : jsstring) (x : state) (c : continuation)
           (z : state) : Prop :=
  exists y : state,
    c y = Some z
    /\ endIndex x <= endIndex y
    /\ (endIndex x <= List.length input -> endIndex y <= List.length input).

(** Two continuations that agree from a state on: they are the same to a
    matcher started there. *)
Definition agree_from (input : jsstring) (x : state) (c1 c2 : continuation)
  : Prop :=
  forall y, endIndex x <= endIndex y -> endIndex y <= List.length input ->
            c1 y = c2 y.

(** The matches of [results], one after the other: each begins where
    the search for it began or later, and the search for the next one
    begins at its end or later. *)
Inductive chained (input : jsstring) (ignoreCase : bool) (re : regex)
  : nat -> list (nat * state) -> Prop :=
| chained_nil (from : nat) : chained input ignoreCase re from []
| chained_cons (from i : nat) (y : state) (rs : list (nat * state))
               (next : nat) :
    from <= i -> i <= endIndex y -> endIndex y <= List.length input ->
    match_at input ignoreCase re i = Some y -> endIndex y <= next ->
    chained input ignoreCase re next rs ->
    chained input ignoreCase re from ((i, y) :: rs).

(** A replacement that returns for every match. *)
Definition returns_always (v : replaceValue) : Prop :=
  forall matched caps, exists r, replacement_for v matched caps = Normal r.

(** A pass over the text from left to right: where [m] finds a match at
    the head of what is left, its replacement is put out and the match is
    skipped; elsewhere the character is put out. *)
Section Walk.
Variable m : jsstring -> option (nat * jsstring).

Fixpoint walk (skip : nat) (s : jsstring) : jsstring :=
  match s with
  | [] => []
  | c :: s' =>
      match skip with
      | S k => walk k s'
      | 0 =>
          match m s with
          | Some (k, replacement) => replacement ++ walk (Nat.pred k) s'
          | None => c :: walk 0 s'
          end
      end
  end.
End Walk.

(** A description [m] of the matches of a pattern and their replacements
    by the text from the index of the match on. *)
Definition looks_ahead (re : regex) (ignoreCase : bool) (v : replaceValue)
           (m : jsstring -> option (nat * jsstring)) : Prop :=
  forall (input : jsstring) (i : nat),
    i <= List.length input ->
    match match_at input ignoreCase re i with
    | Some y =>
        exists k replacement,
          endIndex y = i + S k
          /\ m (skipn i input) = Some (S k, replacement)
          /\ replacement_for v (substring input i (endIndex y))
               (capture_string input y) = Normal replacement
    | None => m (skipn i input) = None
    end.

(** The matches of [/([.!?])\s*(\w)/] described by the text ahead: after
    [k] white space characters comes the word character [b]. *)
Fixpoint word_after_spaces (s : jsstring) : option (nat * code_unit) :=
  match s with
  | [] => None
  | c :: s' =>
      if JSString.is_whitespace c
      then match word_after_spaces s' with
           | Some (k, b) => Some (S k, b)
           | None => None
           end
      else if is_word_char c then Some (0, c) else None
  end.

Definition punctuation_then_word_at (s : jsstring)
  : option (nat * jsstring) :=
  match s with
  | [] => None
  | a :: rest =>
      if one_of (js ".!?") a
      then match word_after_spaces rest with
           | Some (k, b) => Some (S (S k), [a; 32%N; b])
           | None => None
           end
      else None
  end.

(** The rule with the function [match => match.toLowerCase()] in the
    place of [their_there]. *)
Definition lowerCaseMatch (match_ : jsstring) (_ : nat -> option jsstring)
  : completion jsstring :=
  Normal (JSString.toLowerCase match_).

(** The characters of the three words: small letters and the apostrophe. *)
Definition small_or_apostrophe (ch : code_unit) : Prop :=
  (97 <= ch <= 122)%N \/ ch = 39%N.

(** A full stop, exclamation mark or question mark with a word character
    right after it. *)
Definition glued (a b : code_unit) : bool :=
  one_of (js ".!?") a && is_word_char b.

(** No two neighbours of the text are glued. *)
Fixpoint separated (s : jsstring) : bool :=
  match s with
  | [] => true
  | a :: t =>
      match t with
      | [] => true
      | b :: _ => negb (glued a b)
      end && separated t
  end.

(** The matches of [/\s+/] described by the text ahead. *)
Fixpoint leading_spaces (s : jsstring) : nat :=
  match s with
  | [] => 0
  | c :: s' => if JSString.is_whitespace c then S (leading_spaces s') else 0
  end.

Definition whitespace_run_at (s : jsstring) : option (nat * jsstring) :=
  match leading_spaces s with
  | 0 => None
  | S k => Some (S k, [32%N])
  end.

(** A character and what [toLowerCase] may put in its place. *)
Definition same_or_small (a b : code_unit) : Prop :=
  a = b \/ a = JSString.lower_unit b.

(** A character and what [capitalize] may put in its place. *)
Definition same_or_capital (a b : code_unit) : Prop :=
  a = b \/ (lower_case_letter b = true /\ a = JSString.upper_unit b).

(* ================================================================== *)
(** * Sample inputs *)
(* ================================================================== *)

Definition sample_text : jsstring := js "She dont like a apple".

Definition sample_matches : list Match :=
  [ mkMatch 4 4 [js "doesn't"; js "don't"] None;
    mkMatch 9 4 [] None;
    mkMatch 14 1 [js "an"] (Some (js "like a apple")) ].

Definition stray_matches : list Match :=
  [ mkMatch 40 3 [js "far"] None;
    mkMatch (-2) 5 [js "neg"] None;
    mkMatch 1 100 [js "long"] None;
    mkMatch 1 2 [js "again"] None ].

Definition timed_out : thrown :=
  AxiosError (js "timeout of 10000ms exceeded") (Some (js "ECONNABORTED")) None.

(* ================================================================== *)
(** * Notions for the further properties *)
(* ================================================================== *)

(** A finding with a candidate to put in. *)
Definition has_candidate (m : Match) : bool :=
  match replacements m with
  | [] => false
  | _ :: _ => true
  end.

(** The findings are met with the highest offset first. *)
Definition offset_not_below (a b : Match) : Prop := (offset b <= offset a)%Z.

Definition offset_above (a b : Match) : Prop := (offset b < offset a)%Z.


(** Every two neighbours of the text pass the test [ok]. *)
Fixpoint neighbours (ok : code_unit -> code_unit -> bool) (s : jsstring)
  : bool :=
  match s with
  | [] => true
  | a :: t =>
      match t with
      | [] => true
      | b :: _ => ok a b
      end && neighbours ok t
  end.

(** Not two white space characters in a row. *)
Definition no_double_space (a b : code_unit) : bool :=
  negb (JSString.is_whitespace a && JSString.is_whitespace b).

(** No white space right before a full stop, comma, exclamation mark or
    question mark. *)
Definition no_space_before_mark (a b : code_unit) : bool :=
  negb (JSString.is_whitespace a && one_of (js ".,!?") b).

(** No white space but the space character. *)
Definition plain_space (a : code_unit) : bool :=
  negb (JSString.is_whitespace a) || code_unit_eqb a 32%N.

(** The matches of [/\s+([.,!?])/] described by the text ahead: a run of
    white space and the mark after it. *)
Definition space_before_punctuation_at (s : jsstring)
  : option (nat * jsstring) :=
  match leading_spaces s with
  | 0 => None
  | S k =>
      match nth_error s (S k) with
      | Some p => if one_of (js ".,!?") p then Some (S (S k), [p]) else None
      | None => None
      end
  end.

(** The matches of [/[.!?]\s+[a-z]/], the second alternative of the
    capitalisation pattern with the letter after it, described by the
    text ahead, each with what [capitalize] puts in its place. *)
Definition sentence_start_at (s : jsstring) : option (nat * jsstring) :=
  match s with
  | [] => None
  | p :: rest =>
      if one_of (js ".!?") p
      then match leading_spaces rest with
           | 0 => None
           | S k =>
               match nth_error rest (S k) with
               | Some a =>
                   if lower_case_letter a
                   then Some (S (S (S k)),
                              p :: firstn (S k) rest
                                ++ [JSString.upper_unit a])
                   else None
               | None => None
               end
           end
      else None
  end.

(** The capitalisation pass as a pass from left to right: the small
    letter after the white space the text begins with, when there is
    one, and the matches of the second alternative after it. *)
Definition capitalized (s : jsstring) : jsstring :=
  match nth_error s (leading_spaces s) with
  | Some a =>
      if lower_case_letter a
      then firstn (leading_spaces s) s
             ++ JSString.upper_unit a
             :: walk sentence_start_at 0 (skipn (S (leading_spaces s)) s)
      else walk sentence_start_at 0 s
  | None => walk sentence_start_at 0 s
  end.

(** Nowhere in the text does a small letter follow a full stop,
    exclamation mark or question mark and white space. *)
Fixpoint no_small_sentence (s : jsstring) : Prop :=
  match s with
  | [] => True
  | _ :: s' => sentence_start_at s = None /\ no_small_sentence s'
  end.

(** Findings that overlap, in no order. *)
Definition tangled_matches : list Match :=
  [ mkMatch 6 9 [js "likes"] None;
    mkMatch 4 4 [js "does not"] None;
    mkMatch 30 2 [js "!"] None;
    mkMatch 8 0 [] None ].

(* ================================================================== *)
(** * Properties of strings and slices *)
(* ================================================================== *)

Section SliceFacts.

Lemma segment_nil (text : jsstring) (a : nat) : segment text a a = [].
Proof. unfold segment. now rewrite Nat.sub_diag. Qed.

Lemma segment_from_start (text : jsstring) (n : nat) :
  segment text 0 n = firstn n text.
Proof. unfold segment. now rewrite Nat.sub_0_r. Qed.

Lemma segment_all (text : jsstring) :
  segment text 0 (List.length text) = text.
Proof. unfold segment. rewrite Nat.sub_0_r. apply firstn_all. Qed.

Lemma firstn_plus (A : Type) (n m : nat) (l : list A) :
  firstn (n + m) l = firstn n l ++ firstn m (skipn n l).
Proof.
  revert l. induction n as [|n IH]; intros [|x l]; simpl; trivial.
  - now rewrite firstn_nil.
  - now rewrite IH.
Qed.

Lemma segment_split (text : jsstring) (a b c : nat) :
  a <= b -> b <= c ->
  segment text a c = segment text a b ++ segment text b c.
Proof.
  intros Hab Hbc. unfold segment.
  replace (c - a) with ((b - a) + (c - b)) by lia.
  rewrite firstn_plus, skipn_skipn.
  now replace (b - a + a) with b by lia.
Qed.

Lemma segment_to_end (text : jsstring) (a : nat) :
  segment text a (List.length text) = skipn a text.
Proof.
  unfold segment. rewrite <- (length_skipn a text). apply firstn_all.
Qed.

Lemma segment_firstn (text : jsstring) (a b n : nat) :
  b <= n -> segment (firstn n text) a b = segment text a b.
Proof.
  intros Hb. unfold segment.
  rewrite skipn_firstn_comm, firstn_firstn.
  now replace (Nat.min (b - a) (n - a)) with (b - a) by lia.
Qed.

Lemma clamp_in_range (len i : Z) :
  (0 <= i <= len)%Z -> JSString.clamp_index len i = i.
Proof.
  intros Hi. unfold JSString.clamp_index.
  destruct (Z.ltb_spec i 0); lia.
Qed.

(** Within the string, [slice] is the plain segment. *)
Lemma slice_prefix (s : jsstring) (e : Z) :
  (0 <= e <= Z.of_nat (List.length s))%Z ->
  JSString.slice s 0 (Some e) = firstn (Z.to_nat e) s.
Proof.
  intros He. unfold JSString.slice.
  rewrite !clamp_in_range by lia.
  now rewrite Z.sub_0_r.
Qed.

Lemma slice_suffix (s : jsstring) (b : Z) :
  (0 <= b <= Z.of_nat (List.length s))%Z ->
  JSString.slice s b None = skipn (Z.to_nat b) s.
Proof.
  intros Hb. unfold JSString.slice.
  rewrite clamp_in_range by lia.
  replace (Z.to_nat (Z.of_nat (List.length s) - b))
    with (List.length (skipn (Z.to_nat b) s))
    by (rewrite length_skipn; lia).
  apply firstn_all.
Qed.

(** Whatever the indices, [slice] gives a segment of the string: they
    are clamped to it. *)
Lemma slice_clamps (s : jsstring) (start : Z) (end_ : option Z) :
  exists from to : nat,
    from <= List.length s /\ to <= List.length s
    /\ JSString.slice s start end_ = segment s from to.
Proof.
  unfold JSString.slice.
  set (len := Z.of_nat (List.length s)).
  assert (Hc : forall i, (0 <= JSString.clamp_index len i <= len)%Z).
  { intros i. unfold JSString.clamp_index, len.
    destruct (Z.ltb_spec i 0); lia. }
  set (from := JSString.clamp_index len start).
  set (to := match end_ with
             | Some e => JSString.clamp_index len e
             | None => len
             end).
  assert (Hto : (0 <= to <= len)%Z).
  { unfold to. destruct end_; [apply Hc | unfold len; lia]. }
  specialize (Hc start). fold from in Hc.
  exists (Z.to_nat from), (Z.to_nat to). unfold segment, len in *.
  repeat split; try lia.
  f_equal. lia.
Qed.

End SliceFacts.

(* ================================================================== *)
(** * The sort of the matches *)
(* ================================================================== *)

Section SortFacts.
Variable A : Type.
Variable compare : A -> A -> Z.

Lemma insert_sorted_perm (x : A) (l : list A) :
  Permutation (x :: l) (insert_sorted compare x l).
Proof.
  induction l as [|y l IH]; simpl; [reflexivity|].
  destruct (compare x y <=? 0)%Z; [reflexivity|].
  rewrite perm_swap. now constructor.
Qed.

Lemma sort_perm (l : list A) : Permutation l (sort compare l).
Proof.
  induction l as [|x l IH]; simpl; [constructor|].
  rewrite <- insert_sorted_perm. now constructor.
Qed.

Lemma Forall_sort (P : A -> Prop) (l : list A) :
  Forall P l -> Forall P (sort compare l).
Proof. intros H. eapply Permutation_Forall; [apply sort_perm | exact H]. Qed.

Lemma Forall_insert_sorted (P : A -> Prop) (x : A) (l : list A) :
  P x -> Forall P l -> Forall P (insert_sorted compare x l).
Proof.
  intros Hx Hl.
  eapply Permutation_Forall; [apply insert_sorted_perm | now constructor].
Qed.
End SortFacts.

Lemma StronglySorted_snoc (A : Type) (R : A -> A -> Prop)
      (l : list A) (x : A) :
  StronglySorted R l -> Forall (fun y => R y x) l ->
  StronglySorted R (l ++ [x]).
Proof.
  induction 1 as [|y l Hl IH Hy]; intros Hx; simpl.
  - repeat constructor.
  - inversion Hx; subst. constructor; [now apply IH|].
    apply Forall_app. split; [assumption | now constructor].
Qed.

Lemma StronglySorted_rev (A : Type) (R : A -> A -> Prop) (l : list A) :
  StronglySorted R l -> StronglySorted (fun a b => R b a) (rev l).
Proof.
  induction 1 as [|x l Hl IH Hx]; simpl.
  - constructor.
  - apply StronglySorted_snoc; [assumption|].
    now apply Forall_rev.
Qed.

Section SpliceFacts.
Variable text : jsstring.

Lemma insert_right_to_left (x : Match) (l : list Match) :
  well_formed text x -> Forall (well_formed text) l ->
  Forall (disjoint x) l -> right_to_left l ->
  right_to_left (insert_sorted by_offset_descending x l).
Proof.
  intros Hx Hl Hd Hs. unfold right_to_left in *.
  induction l as [|y l IH]; simpl.
  - repeat constructor.
  - inversion Hl as [|? ? Hy Hl']; subst.
    inversion Hd as [|? ? Hxy Hd']; subst.
    inversion Hs as [|? ? Hs' Hyl]; subst.
    unfold by_offset_descending.
    destruct (Z.leb_spec (offset y - offset x) 0) as [Hle|Hgt].
    + constructor; [assumption|].
      assert (Hyx : before y x).
      { unfold well_formed, disjoint, before in *. lia. }
      constructor; [assumption|].
      eapply Forall_impl; [|exact Hyl].
      intros z Hz. unfold well_formed, before in *. lia.
    + constructor; [now apply IH|].
      apply Forall_insert_sorted; [|assumption].
      unfold well_formed, disjoint, before in *. lia.
Qed.

Lemma sort_right_to_left (ms : list Match) :
  Forall (well_formed text) ms -> non_overlapping ms ->
  right_to_left (sort by_offset_descending ms).
Proof.
  intros Hwf Hno. induction Hno as [|x l Hx Hl IH]; simpl.
  - constructor.
  - inversion Hwf; subst.
    apply insert_right_to_left; auto using Forall_sort.
Qed.

Lemma right_to_left_rev (d : list Match) :
  right_to_left d -> StronglySorted before (rev d).
Proof. apply (@StronglySorted_rev _ (fun a b => before b a)). Qed.

End SpliceFacts.

Section FoldFacts.
Variable text : jsstring.

Lemma rewritten_upto_end (ms : list Match) (from : nat) :
  rewritten_upto text from ms (List.length text) = rewritten text from ms.
Proof.
  revert from. induction ms as [|m ms IH]; intros from; simpl.
  - apply segment_to_end.
  - now rewrite IH.
Qed.

Lemma rewritten_upto_snoc (ms : list Match) (m : Match) (from upto : nat) :
  rewritten_upto text from (ms ++ [m]) upto
  = rewritten_upto text from ms (Z.to_nat (offset m))
      ++ patch text m
      ++ segment text (Z.to_nat (offset m + length m)) upto.
Proof.
  revert from. induction ms as [|m' ms IH]; intros from; simpl.
  - reflexivity.
  - rewrite IH. now rewrite <- !app_assoc.
Qed.

(** One round of the loop on a text whose first [B] characters are
    still those of the original and hold the span of the match. *)
Lemma applyMatch_in_range (m : Match) (B : nat) (tail : jsstring) :
  well_formed text m -> (offset m + length m <= Z.of_nat B)%Z ->
  B <= List.length text ->
  applyMatch (firstn B text ++ tail) m
  = firstn (Z.to_nat (offset m)) text
      ++ patch text m
      ++ segment text (Z.to_nat (offset m + length m)) B ++ tail.
Proof.
  intros (Ho & Hl & Hb) HB HBt.
  assert (Hlen : List.length (firstn B text) = B)
    by (rewrite length_firstn; lia).
  unfold applyMatch, patch. destruct (replacements m) as [|r rs].
  - rewrite !app_assoc. f_equal.
    rewrite <- (segment_from_start text B).
    rewrite (segment_split text (a:=0) (b:=Z.to_nat (offset m)) (c:=B))
      by lia.
    rewrite (segment_split text (a:=Z.to_nat (offset m))
               (b:=Z.to_nat (offset m + length m)) (c:=B)) by lia.
    unfold span. rewrite <- app_assoc. f_equal.
    apply segment_from_start.
  - cbv zeta.
    rewrite slice_prefix by (rewrite length_app; lia).
    rewrite slice_suffix by (rewrite length_app; lia).
    rewrite firstn_app, skipn_app, Hlen, firstn_firstn.
    replace (Z.to_nat (offset m) - B) with 0 by lia.
    replace (Z.to_nat (offset m + length m) - B) with 0 by lia.
    rewrite Nat.min_l by lia. simpl. rewrite app_nil_r.
    rewrite skipn_firstn_comm. reflexivity.
Qed.

Lemma fold_applyMatch (d : list Match) :
  forall (B : nat) (tail : jsstring),
    right_to_left d -> Forall (well_formed text) d ->
    Forall (fun m => (offset m + length m <= Z.of_nat B)%Z) d ->
    B <= List.length text ->
    fold_left applyMatch d (firstn B text ++ tail)
    = rewritten_upto text 0 (rev d) B ++ tail.
Proof.
  induction d as [|m d IH]; intros B tail Hs Hwf Hb HB; simpl.
  - now rewrite segment_from_start.
  - inversion Hs as [|? ? Hs' Hm]; subst.
    inversion Hwf as [|? ? Hm_wf Hwf']; subst.
    inversion Hb as [|? ? HmB Hb']; subst.
    rewrite applyMatch_in_range by assumption.
    rewrite rewritten_upto_snoc, <- !app_assoc.
    apply IH; trivial.
    + eapply Forall_impl; [|exact Hm].
      intros z Hz. unfold before in Hz.
      destruct Hm_wf as (Ho & _). lia.
    + destruct Hm_wf as (Ho & Hl & Hlen). lia.
Qed.

End FoldFacts.

(* ================================================================== *)
(** * The splice of the LanguageTool client *)
(* ================================================================== *)

(** C1.  For every text and every list of pairwise non-overlapping
    matches of the data model (a non-negative offset and a positive
    length) that lie within the text, [applyMatches] gives the text in
    which, going through the matches from left to right, the span of each
    match is replaced by its first candidate, the span of a match without
    candidates is as it was, and everything between the spans is as it
    was. *)
Theorem splice_replaces_each_span (text : jsstring) (ms : list Match) :
  Forall (well_formed text) ms ->
  non_overlapping ms ->
  exists ordered : list Match,
    Permutation ms ordered
    /\ StronglySorted before ordered
    /\ applyMatches text ms = rewritten text 0 ordered.
Proof.
  intros Hwf Hno.
  exists (rev (sort by_offset_descending ms)).
  assert (Hd := sort_right_to_left Hwf Hno).
  split; [|split].
  - rewrite <- Permutation_rev. apply sort_perm.
  - now apply right_to_left_rev.
  - unfold applyMatches. fold by_offset_descending.
    rewrite <- (firstn_all text) at 1.
    rewrite <- (app_nil_r (firstn _ text)).
    rewrite fold_applyMatch; trivial.
    + now rewrite app_nil_r, rewritten_upto_end.
    + now apply Forall_sort.
    + apply Forall_sort. eapply Forall_impl; [|exact Hwf].
      intros m (_ & _ & H). exact H.
Qed.

Lemma splice_replaces_each_span_witness :
  exists ordered : list Match,
    Permutation sample_matches ordered
    /\ StronglySorted before ordered
    /\ applyMatches sample_text sample_matches
       = rewritten sample_text 0 ordered.
Proof.
  apply splice_replaces_each_span.
  - repeat constructor; unfold well_formed; simpl; lia.
  - repeat constructor; unfold disjoint; simpl; lia.
Defined.

(** C5.  For two matches at the offsets 5 and 20 the result of the splice
    is the same whichever of them comes first in the list of the service,
    whatever their lengths and candidates. *)
Theorem splice_order_insensitive (text : jsstring) (a b : Match) :
  offset a = 5%Z -> offset b = 20%Z ->
  applyMatches text [a; b] = applyMatches text [b; a].
Proof.
  intros Ha Hb. unfold applyMatches. simpl. now rewrite Ha, Hb.
Qed.

Lemma splice_order_insensitive_witness :
  applyMatches (js "aaaaaBBBcccccccccccccDDeeee")
    [mkMatch 5 3 [js "x"] None; mkMatch 20 2 [js "yyyyy"] None]
  = applyMatches (js "aaaaaBBBcccccccccccccDDeeee")
      [mkMatch 20 2 [js "yyyyy"] None; mkMatch 5 3 [js "x"] None].
Proof.
  apply splice_order_insensitive; reflexivity.
Defined.

Lemma applyMatch_clamps (s : jsstring) (m : Match) :
  exists a b : nat,
    a <= List.length s /\ b <= List.length s
    /\ applyMatch s m = match replacements m with
                        | [] => s
                        | replacement :: _ =>
                            firstn a s ++ replacement ++ skipn b s
                        end.
Proof.
  unfold applyMatch. destruct (replacements m) as [|r rs].
  - exists 0, 0. repeat split; lia.
  - set (len := Z.of_nat (List.length s)).
    assert (Hc : forall i, (0 <= JSString.clamp_index len i <= len)%Z).
    { intros i. unfold JSString.clamp_index, len.
      destruct (Z.ltb_spec i 0); lia. }
    exists (Z.to_nat (JSString.clamp_index len (offset m))),
           (Z.to_nat (JSString.clamp_index len (offset m + length m))).
    pose proof (Hc (offset m)). pose proof (Hc (offset m + length m)%Z).
    unfold len in *. repeat split; try lia.
    cbv zeta. unfold JSString.slice. fold len.
    rewrite (clamp_in_range (len:=len) (i:=0%Z)) by (unfold len; lia).
    rewrite Z.sub_0_r. simpl skipn at 1. do 2 f_equal.
    rewrite <- (firstn_all (skipn _ s)) at 2.
    f_equal. rewrite length_skipn. unfold len in *. lia.
Qed.

(** C10.  Whatever the matches of a response are, with spans outside the
    text or overlapping, [correctWithLanguageTool] returns a string and
    does not throw: each round of the loop keeps a prefix and a suffix of
    the text it works on, their ends clamped to that text. *)
Theorem splice_total (service : jsstring -> axios_outcome)
        (text : jsstring) (ms : list Match) (w : world) :
  service text = Resolved (Some ms) ->
  (exists result : jsstring,
      fst (correctWithLanguageTool service text w) = Normal result)
  /\ (forall (s : jsstring) (m : Match),
         exists a b : nat,
           a <= List.length s /\ b <= List.length s
           /\ applyMatch s m = match replacements m with
                               | [] => s
                               | replacement :: _ =>
                                   firstn a s ++ replacement ++ skipn b s
                               end).
Proof.
  intros Hs. split.
  - exists (applyMatches text ms).
    unfold correctWithLanguageTool, try_catch, io_bind, axios_post.
    now rewrite Hs.
  - apply applyMatch_clamps.
Qed.

Lemma splice_total_witness :
  (exists result : jsstring,
      fst (correctWithLanguageTool (fun _ => Resolved (Some stray_matches))
             (js "abc") (mkWorld [])) = Normal result)
  /\ (forall (s : jsstring) (m : Match),
         exists a b : nat,
           a <= List.length s /\ b <= List.length s
           /\ applyMatch s m = match replacements m with
                               | [] => s
                               | replacement :: _ =>
                                   firstn a s ++ replacement ++ skipn b s
                               end).
Proof.
  apply (@splice_total (fun _ => Resolved (Some stray_matches))
           (js "abc") stray_matches (mkWorld [])).
  reflexivity.
Defined.

Example splice_sample :
  applyMatches sample_text sample_matches = js "She doesn't like an apple".
Proof. reflexivity. Qed.

Example splice_stray :
  applyMatches (js "abc") stray_matches = js "aagainnegainng".
Proof. reflexivity. Qed.

(** A span of length zero is outside the data model, and the splice does
    not keep what is put in at it when another span begins there. *)
Example splice_empty_span :
  applyMatches (js "abc")
    [mkMatch 1 0 [js "X"] None; mkMatch 1 1 [js "Y"] None]
  = js "aYbc".
Proof. reflexivity. Qed.

(* ================================================================== *)
(** * Failures of the service and validation of the text *)
(* ================================================================== *)

Lemma jsstring_eqb_eq (a b : jsstring) : jsstring_eqb a b = true <-> a = b.
Proof.
  revert b. induction a as [|x a IH]; intros [|y b]; simpl;
    try (split; [discriminate | discriminate]); try tauto.
  unfold code_unit_eqb. rewrite andb_true_iff, N.eqb_eq, IH.
  split; [intros [-> ->]; reflexivity | intros H; inversion H; auto].
Qed.

Lemma is_ECONNABORTED_iff (code : option jsstring) :
  is_ECONNABORTED code = true <-> code = Some (js "ECONNABORTED").
Proof.
  destruct code as [c|]; simpl.
  - rewrite jsstring_eqb_eq. split; [now intros -> | now intros [= ->]].
  - split; discriminate.
Qed.

(** C8.  Whatever the service does, [correctWithLanguageTool] returns
    the splice of the findings or throws an [Error] with one of three
    messages.  The message is decided by the error caught in the [catch]
    block alone: the one for a timeout when its code is [ECONNABORTED];
    otherwise the one for an unavailable service when a response came
    with it, and the one for an unreachable service when none did.  A
    rejected request is caught as it is; a response without findings is
    caught as the [TypeError] of reading them, which has neither a code
    nor a response.  The three messages differ from each other. *)
Theorem failure_classification (service : jsstring -> axios_outcome)
        (text : jsstring) (w : world) :
  match service text with
  | Resolved (Some ms) =>
      fst (correctWithLanguageTool service text w)
      = Normal (applyMatches text ms)
  | Resolved None =>
      fst (correctWithLanguageTool service text w)
      = Throw (Error msg_unreachable)
  | Rejected e =>
      fst (correctWithLanguageTool service text w)
      = Throw (Error (classify e))
  end
  /\ (forall e : thrown,
        (classify e = msg_timeout \/ classify e = msg_unavailable
         \/ classify e = msg_unreachable)
        /\ (error_code e = Some (js "ECONNABORTED") ->
            classify e = msg_timeout)
        /\ (error_code e <> Some (js "ECONNABORTED") ->
            error_response e <> None -> classify e = msg_unavailable)
        /\ (error_code e <> Some (js "ECONNABORTED") ->
            error_response e = None -> classify e = msg_unreachable))
  /\ msg_timeout <> msg_unavailable
  /\ msg_timeout <> msg_unreachable
  /\ msg_unavailable <> msg_unreachable.
Proof.
  split; [|split].
  - unfold correctWithLanguageTool, try_catch, io_bind, axios_post.
    now destruct (service text) as [[ms|]|e].
  - intros e. split; [|split; [|split]].
    + unfold classify.
      destruct (is_ECONNABORTED _), (truthy (error_response e)); auto.
    + intros Hc. unfold classify.
      now rewrite (proj2 (is_ECONNABORTED_iff _) Hc).
    + intros Hc Hr. unfold classify.
      destruct (is_ECONNABORTED (error_code e)) eqn:E.
      * now apply is_ECONNABORTED_iff in E.
      * destruct (error_response e); [reflexivity | contradiction].
    + intros Hc Hr. unfold classify.
      destruct (is_ECONNABORTED (error_code e)) eqn:E.
      * now apply is_ECONNABORTED_iff in E.
      * now rewrite Hr.
  - repeat split; discriminate.
Qed.

Lemma failure_classification_witness :
  fst (correctWithLanguageTool (fun _ => Rejected timed_out) (js "some text")
         (mkWorld []))
  = Throw (Error (classify timed_out))
  /\ classify timed_out = msg_timeout.
Proof.
  pose proof (@failure_classification (fun _ => Rejected timed_out)
                (js "some text") (mkWorld [])) as (Hthrown & Hclass & _).
  split; [exact Hthrown|].
  exact (proj1 (proj2 (Hclass timed_out)) eq_refl).
Defined.

Example classify_bad_status :
  classify (AxiosError (js "Request failed with status code 503")
              (Some (js "ERR_BAD_RESPONSE")) (Some 503%Z))
  = msg_unavailable.
Proof. reflexivity. Qed.

Example classify_no_network :
  classify (AxiosError (js "getaddrinfo ENOTFOUND api.languagetool.org")
              (Some (js "ENOTFOUND")) None)
  = msg_unreachable.
Proof. reflexivity. Qed.

(** A response that was received, but without [matches], ends in the
    [catch] block with the message for a service that cannot be reached,
    not with the one for a service that is unavailable. *)
Lemma malformed_body :
  axios_post (fun _ => Resolved None) (js "some text") (mkWorld [])
  = (Normal None, mkWorld [js "some text"])
  /\ fst (correctWithLanguageTool (fun _ => Resolved None) (js "some text")
            (mkWorld []))
     = Throw (Error msg_unreachable)
  /\ fst (correctWithLanguageTool (fun _ => Resolved None) (js "some text")
            (mkWorld []))
     <> Throw (Error msg_unavailable).
Proof. repeat split. discriminate. Qed.

Lemma isEmpty_true (s : jsstring) : isEmpty s = true <-> s = [].
Proof. destruct s; simpl; split; congruence. Qed.

(** When the text passes the two tests the page is rendered with a
    result, unless the fallback throws. *)
Lemma postCorrect_valid (service : jsstring -> axios_outcome)
      (text : jsstring) (w : world) :
  JSString.trim text <> [] ->
  (Z.of_nat (List.length text) <= 5000)%Z ->
  postCorrect service (Some text) w
  = try_catch
      (correctedText <~ correctWithLanguageTool service text ;;
       ret (mkLocals (Some correctedText) text true None))
      (fun error =>
         correctedText <~ lift (enhancedFallbackCorrections text) ;;
         ret (mkLocals (Some correctedText) text true
                (Some (error_message error)))) w.
Proof.
  intros Ht Hl. unfold postCorrect.
  destruct (isEmpty text) eqn:E1.
  { apply isEmpty_true in E1. subst. now destruct Ht. }
  destruct (isEmpty (JSString.trim text)) eqn:E2.
  { apply isEmpty_true in E2. contradiction. }
  simpl orb. cbv iota.
  destruct (Z.gtb_spec (Z.of_nat (List.length text)) 5000); [lia|].
  reflexivity.
Qed.

Lemma valid_not_ValidationError (service : jsstring -> axios_outcome)
      (text : jsstring) (w : world) :
  JSString.trim text <> [] ->
  (Z.of_nat (List.length text) <= 5000)%Z ->
  ~ ValidationError text (fst (postCorrect service (Some text) w)).
Proof.
  intros Ht Hl. rewrite postCorrect_valid by assumption.
  unfold try_catch, io_bind, correctWithLanguageTool, try_catch, io_bind,
    axios_post, lift, ret, throw.
  destruct (service text) as [[ms|]|e]; simpl;
    try destruct (enhancedFallbackCorrections text); simpl;
    intros [H|H]; discriminate.
Qed.

Lemma invalid_ValidationError (service : jsstring -> axios_outcome)
      (text : jsstring) (w : world) :
  JSString.trim text = [] \/ (5000 < Z.of_nat (List.length text))%Z ->
  ValidationError text (fst (postCorrect service (Some text) w))
  /\ snd (postCorrect service (Some text) w) = w.
Proof.
  intros H. unfold postCorrect.
  destruct (isEmpty text || isEmpty (JSString.trim text)) eqn:E.
  - split; [now left | reflexivity].
  - apply orb_false_iff in E. destruct E as [_ E].
    destruct H as [H|H].
    + rewrite H in E. discriminate.
    + destruct (Z.gtb_spec (Z.of_nat (List.length text)) 5000); [|lia].
      split; [now right | reflexivity].
Qed.

(** C4.  The handler ends in a validation error exactly when the trimmed
    text is empty or the text is longer than 5000 code units, and then
    nothing is sent to the service and nothing is corrected; 5000 times
    the letter a passes and 5001 times does not. *)
Theorem validation_boundary (service : jsstring -> axios_outcome)
        (text : jsstring) (w : world) :
  (ValidationError text (fst (postCorrect service (Some text) w))
   <-> JSString.trim text = [] \/ (5000 < Z.of_nat (List.length text))%Z)
  /\ (ValidationError text (fst (postCorrect service (Some text) w)) ->
      snd (postCorrect service (Some text) w) = w
      /\ exists l, fst (postCorrect service (Some text) w) = Normal l
                   /\ corrected l = None /\ hasResult l = false)
  /\ ~ ValidationError (repeat 97%N (Z.to_nat 5000))
         (fst (postCorrect service (Some (repeat 97%N (Z.to_nat 5000))) w))
  /\ ValidationError (repeat 97%N (Z.to_nat 5001))
       (fst (postCorrect service (Some (repeat 97%N (Z.to_nat 5001))) w)).
Proof.
  assert (Hiff : forall t,
    ValidationError t (fst (postCorrect service (Some t) w))
    <-> JSString.trim t = [] \/ (5000 < Z.of_nat (List.length t))%Z).
  { intros t. split.
    - intros Hv.
      destruct (list_eq_dec N.eq_dec (JSString.trim t) []) as [|Ht];
        [now left|].
      destruct (Z_lt_le_dec 5000 (Z.of_nat (List.length t))) as [|Hl];
        [now right|].
      now destruct (@valid_not_ValidationError service t w Ht Hl).
    - intros H. now apply invalid_ValidationError. }
  split; [apply Hiff|]. split; [|split].
  - intros Hv. apply Hiff in Hv.
    destruct (@invalid_ValidationError service text w Hv) as [Hr Hw].
    split; [exact Hw|].
    destruct Hr as [Hr|Hr]; rewrite Hr; eexists; repeat split.
  - rewrite Hiff, repeat_length. intros [H|H]; [|lia].
    vm_compute in H. discriminate.
  - apply Hiff. right. rewrite repeat_length. lia.
Qed.

(* ================================================================== *)
(** * Properties of the matcher *)
(* ================================================================== *)

Section MatcherFacts.
Variable input : jsstring.
Variable ignoreCase : bool.

Local Abbreviation matcher := (RegExp.matcher input ignoreCase).

(** The equations of the matcher. *)
Lemma matcher_Seq (r1 r2 : regex) (x : state) (c : continuation) :
  matcher (Seq r1 r2) x c = matcher r1 x (fun y => matcher r2 y c).
Proof. reflexivity. Qed.

Lemma matcher_Alt (r1 r2 : regex) (x : state) (c : continuation) :
  matcher (Alt r1 r2) x c
  = match matcher r1 x c with
    | Some z => Some z
    | None => matcher r2 x c
    end.
Proof. reflexivity. Qed.

Lemma matcher_Group (n : nat) (r : regex) (x : state) (c : continuation) :
  matcher (Group n r) x c
  = matcher r x
      (fun y => c (mkState (endIndex y)
                     (set_capture n (endIndex x, endIndex y) (captures y)))).
Proof. reflexivity. Qed.

Lemma matcher_Star (r : regex) (x : state) (c : continuation) :
  matcher (Star r) x c
  = RepeatMatcher (matcher r) c (List.length input - endIndex x) x.
Proof. reflexivity. Qed.

Lemma matcher_Char (ch : code_unit) (x : state) (c : continuation) :
  matcher (Char ch) x c
  = match nth_error input (endIndex x) with
    | Some a =>
        if code_unit_eqb (canonicalize ignoreCase a)
                         (canonicalize ignoreCase ch)
        then c (advance x) else None
    | None => None
    end.
Proof. reflexivity. Qed.

Lemma matcher_Class (member : code_unit -> bool) (x : state)
      (c : continuation) :
  matcher (Class member) x c
  = match nth_error input (endIndex x) with
    | Some a => if member a then c (advance x) else None
    | None => None
    end.
Proof. reflexivity. Qed.

Lemma matcher_WordBoundary (x : state) (c : continuation) :
  matcher WordBoundary x c
  = if xorb (word_char_before input (endIndex x))
            (word_char_at input (endIndex x))
    then c x else None.
Proof. reflexivity. Qed.

Lemma matcher_Empty (x : state) (c : continuation) : matcher Empty x c = c x.
Proof. reflexivity. Qed.

Lemma reaches_here (x : state) (c : continuation) (z : state) :
  c x = Some z -> reaches input x c z.
Proof. intros H. exists x. auto. Qed.

Lemma reaches_advance (x : state) (c : continuation) (z : state)
      (a : code_unit) :
  nth_error input (endIndex x) = Some a ->
  c (advance x) = Some z -> reaches input x c z.
Proof.
  intros Hn H. exists (advance x). simpl. repeat split; auto.
  intros _. apply Nat.le_succ_l. apply nth_error_Some. congruence.
Qed.

Lemma reaches_trans (x y : state) (c : continuation) (z : state) :
  endIndex x <= endIndex y ->
  (endIndex x <= List.length input -> endIndex y <= List.length input) ->
  reaches input y c z -> reaches input x c z.
Proof.
  intros Hxy Hb (y' & Hc & Hle & Hb'). exists y'. repeat split; auto.
  lia.
Qed.

Lemma RepeatMatcher_reaches
      (m : state -> continuation -> option state) (c : continuation) :
  (forall x c' z, m x c' = Some z -> reaches input x c' z) ->
  forall n x z, RepeatMatcher m c n x = Some z -> reaches input x c z.
Proof.
  intros Hm. induction n as [|n IH]; intros x z; simpl.
  - apply reaches_here.
  - destruct (m x _) as [z'|] eqn:E.
    + intros [= ->]. apply Hm in E. destruct E as (y & Hy & Hle & Hb).
      destruct (Nat.eqb (endIndex y) (endIndex x)); [discriminate|].
      apply IH in Hy. eapply reaches_trans; eauto.
    + apply reaches_here.
Qed.

Lemma matcher_reaches (r : regex) :
  forall x c z, matcher r x c = Some z -> reaches input x c z.
Proof.
  induction r as [ | ch | member | | | r1 IH1 r2 IH2 | r1 IH1 r2 IH2
                 | r1 IH1 | n r1 IH1 ]; intros x c z; simpl.
  - apply reaches_here.
  - destruct (nth_error input (endIndex x)) as [a|] eqn:E; [|discriminate].
    destruct (code_unit_eqb _ _); [|discriminate].
    now apply reaches_advance with a.
  - destruct (nth_error input (endIndex x)) as [a|] eqn:E; [|discriminate].
    destruct (member a); [|discriminate].
    now apply reaches_advance with a.
  - destruct (xorb _ _); [apply reaches_here | discriminate].
  - destruct (Nat.eqb _ _); [apply reaches_here | discriminate].
  - intros H. apply IH1 in H. destruct H as (y & Hy & Hle & Hb).
    apply IH2 in Hy. eapply reaches_trans; eauto.
  - destruct (matcher r1 x c) as [z'|] eqn:E.
    + intros [= ->]. now apply IH1.
    + apply IH2.
  - apply RepeatMatcher_reaches. exact IH1.
  - intros H. apply IH1 in H. destruct H as (y & Hy & Hle & Hb).
    eexists. split; [exact Hy|]. simpl. auto.
Qed.

Variable re : regex.

Local Abbreviation match_at := (RegExp.match_at input ignoreCase re).
Local Abbreviation scan := (RegExp.scan input ignoreCase re).
Local Abbreviation exec := (RegExp.exec input ignoreCase re).
Local Abbreviation collect := (RegExp.collect input ignoreCase re).

Lemma match_at_bounds (i : nat) (y : state) :
  match_at i = Some y ->
  i <= endIndex y /\ (i <= List.length input -> endIndex y <= List.length input).
Proof.
  unfold RegExp.match_at. intros H. apply matcher_reaches in H.
  destruct H as (y' & [= ->] & Hle & Hb). simpl in *. auto.
Qed.

(** What [scan] finds is the first match from [i] on. *)
Lemma scan_some (n i j : nat) (y : state) :
  scan n i = Some (j, y) ->
  i <= j <= i + n /\ match_at j = Some y
  /\ forall k, i <= k < j -> match_at k = None.
Proof.
  revert i. induction n as [|n IH]; intros i; simpl.
  - destruct (match_at i) as [y'|] eqn:E; [|discriminate].
    intros [= -> ->]. repeat split; auto; lia.
  - destruct (match_at i) as [y'|] eqn:E.
    + intros [= -> ->]. repeat split; auto; lia.
    + intros H. apply IH in H. destruct H as (Hj & Hm & Hk).
      repeat split; auto; try lia.
      intros k Hk'. destruct (Nat.eq_dec k i) as [->|]; [exact E|].
      apply Hk. lia.
Qed.

Lemma scan_none (n i : nat) :
  scan n i = None -> forall k, i <= k <= i + n -> match_at k = None.
Proof.
  revert i. induction n as [|n IH]; intros i; simpl.
  - destruct (match_at i) eqn:E; [discriminate|].
    intros _ k Hk. now replace k with i by lia.
  - destruct (match_at i) eqn:E; [discriminate|].
    intros H k Hk. destruct (Nat.eq_dec k i) as [->|]; [exact E|].
    apply (IH _ H). lia.
Qed.

Lemma exec_some (lastIndex j : nat) (y : state) :
  exec lastIndex = Some (j, y) ->
  lastIndex <= j <= List.length input
  /\ j <= endIndex y <= List.length input
  /\ match_at j = Some y
  /\ forall k, lastIndex <= k < j -> match_at k = None.
Proof.
  unfold RegExp.exec.
  destruct (Nat.ltb_spec (List.length input) lastIndex) as [Hlt|Hge];
    [discriminate|].
  intros H. apply scan_some in H. destruct H as (Hj & Hm & Hk).
  pose proof (match_at_bounds _ Hm) as (H1 & H2).
  repeat split; auto; lia.
Qed.

Lemma exec_none (lastIndex : nat) :
  exec lastIndex = None ->
  forall k, lastIndex <= k <= List.length input -> match_at k = None.
Proof.
  unfold RegExp.exec.
  destruct (Nat.ltb_spec (List.length input) lastIndex) as [Hlt|Hge].
  - intros _ k Hk. lia.
  - intros H k Hk. eapply scan_none; [exact H | lia].
Qed.

Lemma collect_chained (n lastIndex : nat) :
  chained input ignoreCase re lastIndex (collect n lastIndex).
Proof.
  revert lastIndex. induction n as [|n IH]; intros lastIndex; simpl.
  - constructor.
  - destruct (exec lastIndex) as [[i y]|] eqn:E; [|constructor].
    apply exec_some in E. destruct E as (Hi & Hy & Hm & _).
    econstructor; try apply IH; try tauto.
    destruct (Nat.eqb _ _); lia.
Qed.

End MatcherFacts.

(* ================================================================== *)
(** * The bounds of the matcher are never reached *)
(* ================================================================== *)

Section Bounds.
Variable input : jsstring.
Variable ignoreCase : bool.

Local Abbreviation matcher := (RegExp.matcher input ignoreCase).

Lemma RepeatMatcher_ext (m : state -> continuation -> option state) :
  (forall x c1 c2, endIndex x <= List.length input ->
                   agree_from input x c1 c2 -> m x c1 = m x c2) ->
  forall n x c1 c2,
    endIndex x <= List.length input -> agree_from input x c1 c2 ->
    RepeatMatcher m c1 n x = RepeatMatcher m c2 n x.
Proof.
  intros Hm. induction n as [|n IH]; intros x c1 c2 Hx Hc; simpl.
  - now apply Hc.
  - rewrite (Hc x) by auto.
    erewrite Hm; [reflexivity | assumption |].
    intros y Hxy Hy. destruct (Nat.eqb _ _); [reflexivity|].
    apply IH; [assumption|].
    intros z Hyz Hz. apply Hc; [lia | assumption].
Qed.

Lemma matcher_ext (r : regex) :
  forall x c1 c2,
    endIndex x <= List.length input -> agree_from input x c1 c2 ->
    matcher r x c1 = matcher r x c2.
Proof.
  induction r as [ | ch | member | | | r1 IH1 r2 IH2 | r1 IH1 r2 IH2
                 | r1 IH1 | n r1 IH1 ]; intros x c1 c2 Hx Hc; simpl.
  - now apply Hc.
  - destruct (nth_error input (endIndex x)) as [a|] eqn:E; [|reflexivity].
    destruct (code_unit_eqb _ _); [|reflexivity].
    assert (endIndex x < List.length input)
      by (apply nth_error_Some; congruence).
    apply Hc; simpl; lia.
  - destruct (nth_error input (endIndex x)) as [a|] eqn:E; [|reflexivity].
    destruct (member a); [|reflexivity].
    assert (endIndex x < List.length input)
      by (apply nth_error_Some; congruence).
    apply Hc; simpl; lia.
  - destruct (xorb _ _); [now apply Hc | reflexivity].
  - destruct (Nat.eqb _ _); [now apply Hc | reflexivity].
  - apply IH1; [assumption|].
    intros y Hxy Hy. apply IH2; [assumption|].
    intros z Hyz Hz. apply Hc; [lia | assumption].
  - rewrite (IH1 x c1 c2), (IH2 x c1 c2) by assumption. reflexivity.
  - now apply RepeatMatcher_ext.
  - apply IH1; [assumption|].
    intros y Hxy Hy. apply Hc; simpl; assumption.
Qed.

Lemma matcher_fails (r : regex) (x : state) :
  matcher r x (fun _ => None) = None.
Proof.
  destruct (matcher r x (fun _ => None)) as [z|] eqn:E; [|reflexivity].
  apply matcher_reaches in E. destruct E as (y & E & _). discriminate.
Qed.

Lemma RepeatMatcher_S (m : state -> continuation -> option state)
      (c : continuation) (n : nat) (x : state) :
  RepeatMatcher m c (S n) x
  = match m x (fun y => if Nat.eqb (endIndex y) (endIndex x)
                        then None else RepeatMatcher m c n y) with
    | Some z => Some z
    | None => c x
    end.
Proof. reflexivity. Qed.

(** A round more than there are characters left changes nothing: the
    repetition ends by itself before the bound [n] does. *)
Lemma RepeatMatcher_enough (r : regex) (c : continuation) (n : nat) :
  forall x,
    endIndex x <= List.length input ->
    List.length input - endIndex x <= n ->
    RepeatMatcher (matcher r) c (S n) x = RepeatMatcher (matcher r) c n x.
Proof.
  induction n as [|n IH]; intros x Hx Hn.
  - rewrite RepeatMatcher_S. cbn [RepeatMatcher].
    rewrite (@matcher_ext r x _ (fun _ => None)); [|assumption|].
    + now rewrite matcher_fails.
    + intros y Hxy Hy.
      destruct (Nat.eqb_spec (endIndex y) (endIndex x)); [reflexivity | lia].
  - rewrite (RepeatMatcher_S _ _ (S n) x), (RepeatMatcher_S _ _ n x).
    rewrite (@matcher_ext r x
               (fun y => if Nat.eqb (endIndex y) (endIndex x) then None
                         else RepeatMatcher (matcher r) c (S n) y)
               (fun y => if Nat.eqb (endIndex y) (endIndex x) then None
                         else RepeatMatcher (matcher r) c n y));
      [reflexivity | assumption |].
    intros y Hxy Hy.
    destruct (Nat.eqb_spec (endIndex y) (endIndex x)); [reflexivity|].
    apply IH; lia.
Qed.

Theorem repeat_bound_enough (r : regex) (c : continuation) (x : state)
        (k : nat) :
  endIndex x <= List.length input ->
  RepeatMatcher (matcher r) c (List.length input - endIndex x + k) x
  = matcher (Star r) x c.
Proof.
  intros Hx. rewrite matcher_Star. induction k as [|k IH].
  - now rewrite Nat.add_0_r.
  - rewrite Nat.add_succ_r, RepeatMatcher_enough by lia. exact IH.
Qed.

Variable re : regex.

Local Abbreviation exec := (RegExp.exec input ignoreCase re).
Local Abbreviation collect := (RegExp.collect input ignoreCase re).

(** The loop that gathers the matches ends by itself too. *)
Lemma collect_enough (n : nat) :
  forall lastIndex k,
    List.length input + 2 <= n + lastIndex ->
    collect (n + k) lastIndex = collect n lastIndex.
Proof.
  induction n as [|n IH]; intros l k Hn.
  - assert (E : exec l = None).
    { unfold RegExp.exec.
      destruct (Nat.ltb_spec (List.length input) l); [reflexivity | lia]. }
    destruct k; simpl; [reflexivity | now rewrite E].
  - simpl. destruct (exec l) as [[i y]|] eqn:E; [|reflexivity].
    apply exec_some in E. destruct E as (Hi & Hy & _).
    f_equal. apply IH.
    destruct (Nat.eqb_spec (endIndex y) i); lia.
Qed.

Theorem results_bound_enough (k : nat) :
  collect (S (S (List.length input)) + k) 0 = results input ignoreCase re.
Proof. unfold results. apply collect_enough. lia. Qed.

End Bounds.

(* ================================================================== *)
(** * The fallback corrector never throws *)
(* ================================================================== *)

Section BuildFacts.
Variable v : replaceValue.
Variable input : jsstring.

Lemma chained_In (ignoreCase : bool) (re : regex) (rs : list (nat * state))
      (from i : nat) (y : state) :
  chained input ignoreCase re from rs -> In (i, y) rs ->
  match_at input ignoreCase re i = Some y.
Proof.
  induction 1 as [|from j y' rs next H1 H2 H3 Hm H4 Hc IH]; simpl.
  - contradiction.
  - intros [[= -> ->]|Hin]; auto.
Qed.

(** [build] returns when the replacement of every match does. *)
Lemma build_returns (rs : list (nat * state)) :
  (forall i y, In (i, y) rs ->
     exists r, replacement_for v (substring input i (endIndex y))
                 (capture_string input y) = Normal r) ->
  forall nextSourcePosition accumulatedResult,
  exists out, build v input rs nextSourcePosition accumulatedResult
              = Normal out.
Proof.
  induction rs as [|[i y] rs IH]; intros Hr nsp acc; simpl.
  - eauto.
  - destruct (Hr i y (or_introl eq_refl)) as (r & ->). simpl.
    destruct (Nat.leb nsp i); apply IH; intros; apply Hr; now right.
Qed.
End BuildFacts.

Lemma replace_returns (re : regex) (ignoreCase : bool) (v : replaceValue)
      (input : jsstring) :
  returns_always v -> exists out, replace re ignoreCase v input = Normal out.
Proof.
  intros Hv. unfold replace. apply build_returns. intros. apply Hv.
Qed.

Lemma ReplaceString_returns (template : jsstring) :
  returns_always (ReplaceString template).
Proof. intros m caps. simpl. eauto. Qed.

Lemma their_there_returns : returns_always (ReplaceFunction their_there).
Proof.
  intros m caps. simpl. unfold their_there.
  repeat match goal with |- context [if ?b then _ else _] => destruct b end;
    eauto.
Qed.

Lemma applyCorrections_returns (entries : list (regex * replaceValue)) :
  Forall (fun e => returns_always (snd e)) entries ->
  forall corrected, exists out, applyCorrections entries corrected = Normal out.
Proof.
  induction 1 as [|[pattern v] entries Hv Hr IH]; intros corrected; simpl.
  - eauto.
  - simpl in Hv.
    destruct (replace_returns pattern true corrected Hv) as (out & ->).
    simpl. apply IH.
Qed.

Lemma corrections_return :
  Forall (fun e => returns_always (snd e)) corrections.
Proof.
  unfold corrections.
  repeat constructor;
    simpl; auto using ReplaceString_returns, their_there_returns.
Qed.

(** Both groups of [sentence_start] take part in every match of it: the
    second one is not inside an alternative. *)
Lemma sentence_start_groups (input : jsstring) (i : nat) (y : state) :
  match_at input false sentence_start i = Some y ->
  exists p2, capture_string input y 2 = Some p2.
Proof.
  unfold match_at, sentence_start. rewrite matcher_Seq. intros H.
  apply matcher_reaches in H. destruct H as (y1 & H & _).
  rewrite matcher_Group in H.
  apply matcher_reaches in H. destruct H as (y2 & [= <-] & _).
  unfold capture_string. simpl. eauto.
Qed.

Lemma capitalize_returns (input : jsstring) :
  exists out,
    replace sentence_start false (ReplaceFunction capitalize) input
    = Normal out.
Proof.
  unfold replace. apply build_returns. intros i y Hin.
  eapply chained_In in Hin; [|apply collect_chained].
  apply sentence_start_groups in Hin. destruct Hin as (p2 & Hp2).
  simpl. unfold capitalize. rewrite Hp2. eauto.
Qed.

Theorem enhancedFallbackCorrections_returns (text : jsstring) :
  exists out, enhancedFallbackCorrections text = Normal out.
Proof.
  unfold enhancedFallbackCorrections. destruct text as [|c text]; [eauto|].
  destruct (applyCorrections_returns corrections_return (c :: text))
    as (s1 & ->). cbn [bind].
  destruct (replace_returns space_before_punctuation false s1
              (ReplaceString_returns (js "$1"))) as (s2 & ->). cbn [bind].
  destruct (replace_returns punctuation_then_word false s2
              (ReplaceString_returns (js "$1 $2"))) as (s3 & ->). cbn [bind].
  destruct (replace_returns whitespace_run false s3
              (ReplaceString_returns (js " "))) as (s4 & ->). cbn [bind].
  destruct (capitalize_returns s4) as (s5 & ->). cbn [bind].
  eauto.
Qed.

(* ================================================================== *)
(** * The handler falls back on the local corrector *)
(* ================================================================== *)

(** Whatever goes wrong in [correctWithLanguageTool], what it throws is an
    [Error] with one of the three messages. *)
Lemma correctWithLanguageTool_throws (service : jsstring -> axios_outcome)
      (text : jsstring) (w : world) (err : thrown) :
  fst (correctWithLanguageTool service text w) = Throw err ->
  exists e, err = Error (classify e).
Proof.
  unfold correctWithLanguageTool, try_catch, io_bind, axios_post, throw, ret.
  destruct (service text) as [[ms|]|e]; simpl.
  - discriminate.
  - intros [= <-]. eauto.
  - intros [= <-]. eauto.
Qed.

(** C3.  For a text that passes validation, when the call of the service
    fails, with whatever error, the page is rendered with a result, the
    message of the error thrown by [correctWithLanguageTool] and, as the
    corrected text, what [enhancedFallbackCorrections] returns for the
    original text, and it does return. *)
Theorem remote_failure_falls_back (service : jsstring -> axios_outcome)
        (text : jsstring) (w : world) (err : thrown) :
  JSString.trim text <> [] ->
  (Z.of_nat (List.length text) <= 5000)%Z ->
  fst (correctWithLanguageTool service text w) = Throw err ->
  exists (fallback : jsstring) (l : locals),
    enhancedFallbackCorrections text = Normal fallback
    /\ fst (postCorrect service (Some text) w) = Normal l
    /\ corrected l = Some fallback
    /\ usedFallback l = true
    /\ error l = Some (error_message err)
    /\ (error_message err = msg_timeout
        \/ error_message err = msg_unavailable
        \/ error_message err = msg_unreachable).
Proof.
  intros Ht Hl Hf.
  destruct (enhancedFallbackCorrections_returns text) as (fallback & Hfb).
  exists fallback,
    (mkLocals (Some fallback) text true (Some (error_message err))).
  split; [exact Hfb|]. split; [|split; [|split; [|split]]]; try reflexivity.
  - rewrite postCorrect_valid by assumption.
    unfold try_catch, io_bind at 1.
    destruct (correctWithLanguageTool service text w) as [[a|e] w'];
      simpl in Hf; [discriminate|].
    injection Hf as ->. unfold io_bind, lift, ret. now rewrite Hfb.
  - destruct (correctWithLanguageTool_throws _ _ _ Hf) as (e & ->). simpl.
    unfold classify.
    destruct (is_ECONNABORTED _), (truthy (error_response e)); auto.
Qed.

Lemma remote_failure_falls_back_witness :
  exists (fallback : jsstring) (l : locals),
    enhancedFallbackCorrections (js "me and him goed home") = Normal fallback
    /\ fst (postCorrect (fun _ => Rejected timed_out)
              (Some (js "me and him goed home")) (mkWorld [])) = Normal l
    /\ corrected l = Some fallback
    /\ usedFallback l = true
    /\ error l = Some (error_message (Error msg_timeout))
    /\ (error_message (Error msg_timeout) = msg_timeout
        \/ error_message (Error msg_timeout) = msg_unavailable
        \/ error_message (Error msg_timeout) = msg_unreachable).
Proof.
  apply (@remote_failure_falls_back (fun _ => Rejected timed_out)
           (js "me and him goed home") (mkWorld []) (Error msg_timeout)).
  - vm_compute. discriminate.
  - vm_compute. discriminate.
  - reflexivity.
Defined.

(** A text that passes validation is sent to the service once, whether
    the call succeeds or not. *)
Lemma postCorrect_requests_once (service : jsstring -> axios_outcome)
      (text : jsstring) (w : world) :
  JSString.trim text <> [] ->
  (Z.of_nat (List.length text) <= 5000)%Z ->
  snd (postCorrect service (Some text) w) = mkWorld (text :: requests w).
Proof.
  intros Ht Hl. rewrite postCorrect_valid by assumption.
  unfold try_catch, io_bind, correctWithLanguageTool, try_catch, io_bind,
    axios_post, lift, ret, throw.
  destruct (service text) as [[ms|]|e]; simpl; trivial;
    destruct (enhancedFallbackCorrections text); reflexivity.
Qed.

Example fallback_page :
  fst (postCorrect (fun _ => Rejected timed_out)
         (Some (js "me and him goed home")) (mkWorld []))
  = Normal (mkLocals (Some (js "And I him goes home"))
              (js "me and him goed home") true (Some msg_timeout)).
Proof. vm_compute. reflexivity. Qed.

(* ================================================================== *)
(** * The fallback corrector on the texts of the specification *)
(* ================================================================== *)

(** C6.  [enhancedFallbackCorrections("hello world.  this is nice")] is
    ["Hello world. This is nice"]: one space after the full stop, and a
    capital at the start of the text and after the full stop. *)
Theorem fallback_capitalizes :
  enhancedFallbackCorrections (js "hello world.  this is nice")
  = Normal (js "Hello world. This is nice").
Proof. vm_compute. reflexivity. Qed.

(** C7.  [enhancedFallbackCorrections("i recieve the seperate occured
    items")] is ["I receive the separate occurred items"]. *)
Theorem fallback_misspellings :
  enhancedFallbackCorrections (js "i recieve the seperate occured items")
  = Normal (js "I receive the separate occurred items").
Proof. vm_compute. reflexivity. Qed.

(* ================================================================== *)
(** * [replace] with a pattern that looks only ahead *)
(* ================================================================== *)

Lemma skipn_nth_error (A : Type) (l : list A) (i : nat) (a : A) :
  nth_error l i = Some a -> skipn i l = a :: skipn (S i) l.
Proof.
  revert l. induction i as [|i IH]; intros [|x l]; simpl; try discriminate.
  - now intros [= ->].
  - intros H. now apply IH.
Qed.

Lemma skipn_cons_inv (A : Type) (l : list A) (i : nat) (a : A) (r : list A) :
  skipn i l = a :: r -> nth_error l i = Some a /\ r = skipn (S i) l.
Proof.
  revert l. induction i as [|i IH]; intros [|x l]; simpl; try discriminate.
  - now intros [= -> ->].
  - intros H. now apply IH.
Qed.

Lemma substring_segment (input : jsstring) (from to : nat) :
  substring input from to = segment input from to.
Proof. reflexivity. Qed.

Lemma segment_cons (input : jsstring) (i j : nat) (a : code_unit) :
  nth_error input i = Some a -> i < j ->
  segment input i j = a :: segment input (S i) j.
Proof.
  intros Ha Hij. unfold segment. rewrite (@skipn_nth_error _ _ _ _ Ha).
  replace (j - i) with (S (j - S i)) by lia. reflexivity.
Qed.

Section WalkFacts.
Variable m : jsstring -> option (nat * jsstring).
Variable input : jsstring.

Lemma walk_skip (k : nat) (s : jsstring) :
  k <= List.length s -> walk m k s = walk m 0 (skipn k s).
Proof.
  revert s. induction k as [|k IH]; intros s Hk; [reflexivity|].
  destruct s as [|c s]; simpl in *; [lia|]. apply IH. lia.
Qed.

Lemma walk_unmatched (n l : nat) :
  l + n <= List.length input ->
  (forall t, l <= t < l + n -> m (skipn t input) = None) ->
  walk m 0 (skipn l input)
  = segment input l (l + n) ++ walk m 0 (skipn (l + n) input).
Proof.
  revert l. induction n as [|n IH]; intros l Hl Hm.
  - now rewrite Nat.add_0_r, segment_nil.
  - destruct (nth_error input l) as [a|] eqn:Ha.
    2:{ apply nth_error_None in Ha. lia. }
    rewrite (@segment_cons input l (l + S n) a Ha) by lia.
    pose proof (Hm l ltac:(lia)) as Hml.
    rewrite (@skipn_nth_error _ _ _ _ Ha) in Hml |- *.
    cbn [walk]. rewrite Hml.
    replace (l + S n) with (S l + n) by lia.
    rewrite <- app_comm_cons. f_equal. apply IH; [lia|].
    intros t Ht. apply Hm. lia.
Qed.

Lemma walk_upto (l j : nat) :
  l <= j <= List.length input ->
  (forall t, l <= t < j -> m (skipn t input) = None) ->
  walk m 0 (skipn l input) = segment input l j ++ walk m 0 (skipn j input).
Proof.
  intros Hj Hm. replace j with (l + (j - l)) by lia.
  apply walk_unmatched; [lia|]. intros t Ht. apply Hm. lia.
Qed.

Lemma walk_matched (j k : nat) (replacement : jsstring) :
  j + S k <= List.length input ->
  m (skipn j input) = Some (S k, replacement) ->
  walk m 0 (skipn j input)
  = replacement ++ walk m 0 (skipn (j + S k) input).
Proof.
  intros Hj Hm.
  destruct (nth_error input j) as [a|] eqn:Ha.
  2:{ apply nth_error_None in Ha. lia. }
  rewrite (@skipn_nth_error _ _ _ _ Ha) in Hm |- *.
  cbn [walk]. rewrite Hm. f_equal. cbn [Nat.pred].
  rewrite walk_skip by (rewrite length_skipn; lia).
  rewrite skipn_skipn. f_equal. f_equal. lia.
Qed.
End WalkFacts.

Section ReplaceWalk.
Variable re : regex.
Variable ignoreCase : bool.
Variable v : replaceValue.
Variable m : jsstring -> option (nat * jsstring).
Hypothesis Hm : looks_ahead re ignoreCase v m.

Variable input : jsstring.

Lemma build_collect_walk (n : nat) :
  forall (l : nat) (acc : jsstring),
    l <= List.length input -> List.length input + 2 <= n + l ->
    build v input (collect input ignoreCase re n l) l acc
    = Normal (acc ++ walk m 0 (skipn l input)).
Proof.
  induction n as [|n IH]; intros l acc Hl Hn; [lia|].
  simpl. destruct (exec input ignoreCase re l) as [[j y]|] eqn:E.
  - apply exec_some in E. destruct E as (Hj & Hy & Hmatch & Hnone).
    pose proof (@Hm input j (proj2 Hj)) as Hmj. rewrite Hmatch in Hmj.
    destruct Hmj as (k & replacement & He & Hmk & Hr).
    simpl. rewrite Hr. cbn [bind].
    destruct (Nat.leb_spec l j) as [_|]; [|lia].
    destruct (Nat.eqb_spec (endIndex y) j) as [|_]; [lia|].
    rewrite IH by lia.
    f_equal. rewrite <- !app_assoc. f_equal.
    rewrite (@walk_upto m input l j); [|lia|].
    + rewrite substring_segment. f_equal.
      rewrite He. symmetry. apply walk_matched; [lia | exact Hmk].
    + intros t Ht. pose proof (@Hm input t ltac:(lia)) as Hmt.
      rewrite Hnone in Hmt by lia. exact Hmt.
  - simpl. f_equal. f_equal. rewrite substring_segment, segment_to_end.
    rewrite (@walk_upto m input l (List.length input)); [|lia|].
    + rewrite skipn_all. simpl. rewrite app_nil_r.
      now rewrite segment_to_end.
    + intros t Ht. pose proof (@Hm input t ltac:(lia)) as Hmt.
      rewrite (@exec_none input ignoreCase re l E t) in Hmt by lia.
      exact Hmt.
Qed.

(** [replace] with such a pattern is the pass from left to right. *)
Theorem replace_walk : replace re ignoreCase v input = Normal (walk m 0 input).
Proof.
  unfold replace, results.
  rewrite build_collect_walk; [reflexivity | lia | lia].
Qed.
End ReplaceWalk.

(* ================================================================== *)
(** * The second punctuation pass *)
(* ================================================================== *)

Lemma whitespace_not_word (a : code_unit) :
  JSString.is_whitespace a = true -> is_word_char a = false.
Proof.
  unfold JSString.is_whitespace, is_word_char. intros H.
  apply not_true_is_false. intros Hw.
  repeat rewrite ?orb_true_iff, ?andb_true_iff, ?N.leb_le, ?N.eqb_eq in *.
  lia.
Qed.

Lemma word_after_spaces_nth (s : jsstring) (k : nat) (b : code_unit) :
  word_after_spaces s = Some (k, b) -> nth_error s k = Some b.
Proof.
  revert k. induction s as [|c s IH]; intros k; simpl; [discriminate|].
  destruct (JSString.is_whitespace c).
  - destruct (word_after_spaces s) as [[k' b']|]; [|discriminate].
    intros [= <- <-]. simpl. now apply IH.
  - destruct (is_word_char c); [|discriminate]. now intros [= <- <-].
Qed.

Lemma segment_one (input : jsstring) (i : nat) (a : code_unit) :
  nth_error input i = Some a -> segment input i (S i) = [a].
Proof.
  intros Ha. rewrite (@segment_cons input i (S i) a Ha) by lia.
  now rewrite segment_nil.
Qed.

Section SecondPass.
Variable input : jsstring.

Local Abbreviation matcher := (RegExp.matcher input false).

(** The white space after the punctuation mark: greedy, and nothing is
    gained by giving a character back, for the next character wanted
    is a word character. *)
Lemma spaces_then_word (n : nat) :
  forall x : state,
    List.length input - endIndex x <= n ->
    RepeatMatcher (matcher whitespace)
      (fun y => matcher (Group 2 (Class is_word_char)) y Some) n x
    = match word_after_spaces (skipn (endIndex x) input) with
      | Some (k, b) =>
          Some (mkState (S (endIndex x + k))
                  (set_capture 2 (endIndex x + k, S (endIndex x + k))
                     (captures x)))
      | None => None
      end.
Proof.
  induction n as [|n IH]; intros x Hn.
  - simpl. rewrite skipn_all2 by lia.
    destruct (nth_error input (endIndex x)) as [a|] eqn:Ha; trivial.
    assert (endIndex x < List.length input)
      by (apply nth_error_Some; congruence).
    lia.
  - cbn [RepeatMatcher]. unfold whitespace at 1. rewrite matcher_Class.
    rewrite matcher_Group, matcher_Class.
    destruct (nth_error input (endIndex x)) as [a|] eqn:Ha.
    + rewrite (@skipn_nth_error _ _ _ _ Ha). cbn [word_after_spaces].
      destruct (JSString.is_whitespace a) eqn:Hws.
      * rewrite (whitespace_not_word _ Hws).
        destruct (Nat.eqb_spec (endIndex (advance x)) (endIndex x)) as [E|_];
          [simpl in E; lia|].
        rewrite IH by (simpl; lia). cbn [advance endIndex captures].
        destruct (word_after_spaces (skipn (S (endIndex x)) input))
          as [[k b]|]; trivial.
        now replace (endIndex x + S k) with (S (endIndex x + k)) by lia.
      * destruct (is_word_char a); trivial.
        cbn [advance endIndex captures]. now rewrite Nat.add_0_r.
    + apply nth_error_None in Ha. now rewrite skipn_all2 by lia.
Qed.

End SecondPass.

Lemma punctuation_then_word_looks_ahead :
  looks_ahead punctuation_then_word false (ReplaceString (js "$1 $2"))
    punctuation_then_word_at.
Proof.
  intros input i Hi. unfold match_at, punctuation_then_word.
  rewrite matcher_Seq, matcher_Group, matcher_Class. cbn [endIndex].
  destruct (nth_error input i) as [a|] eqn:Ha.
  - rewrite (@skipn_nth_error _ _ _ _ Ha). cbn [punctuation_then_word_at].
    destruct (one_of (js ".!?") a); trivial.
    rewrite matcher_Seq, matcher_Star, spaces_then_word by (simpl; lia).
    cbn [advance endIndex captures].
    destruct (word_after_spaces (skipn (S i) input)) as [[k b]|] eqn:Hw;
      trivial.
    exists (S k), [a; 32%N; b]. cbn [endIndex]. repeat split; [lia|].
    apply word_after_spaces_nth in Hw. rewrite nth_error_skipn in Hw.
    replace (S i + k) with (S (i + k)) in Hw by lia.
    unfold replacement_for, capture_string, set_capture. simpl.
    change substring with segment.
    rewrite (@segment_one input i a Ha), (@segment_one input _ b Hw).
    reflexivity.
  - apply nth_error_None in Ha. now rewrite skipn_all2 by lia.
Qed.

Lemma punctuation_classes (p : code_unit) :
  one_of (js ".!?") p = true ->
  JSString.is_whitespace p = false /\ is_word_char p = false.
Proof.
  unfold one_of, code_unit_eqb. simpl. rewrite !orb_true_iff, !N.eqb_eq.
  intros [->|[->|[->|H]]]; [now split ..|discriminate].
Qed.

Section SecondPassSplit.
Variables (p w : code_unit) (post : jsstring).
Hypothesis Hp : one_of (js ".!?") p = true.
Hypothesis Hw : is_word_char w = true.

Lemma word_after_spaces_stops (x : jsstring) :
  word_after_spaces (x ++ p :: w :: post) = word_after_spaces x.
Proof.
  destruct (punctuation_classes _ Hp) as (Hws & Hwd).
  induction x as [|c x IH]; simpl.
  - now rewrite Hws, Hwd.
  - now rewrite IH.
Qed.

Lemma punctuation_then_word_at_stops (x : jsstring) :
  x <> [] ->
  punctuation_then_word_at (x ++ p :: w :: post)
  = punctuation_then_word_at x.
Proof.
  destruct x as [|a x]; [congruence|]. intros _.
  rewrite <- app_comm_cons. cbn [punctuation_then_word_at].
  now rewrite word_after_spaces_stops.
Qed.

Lemma punctuation_then_word_at_here :
  punctuation_then_word_at (p :: w :: post) = Some (2, [p; 32%N; w]).
Proof.
  cbn [punctuation_then_word_at]. rewrite Hp. cbn [word_after_spaces].
  destruct (JSString.is_whitespace w) eqn:E.
  - apply whitespace_not_word in E. congruence.
  - now rewrite Hw.
Qed.

Lemma word_after_spaces_length (s : jsstring) (k : nat) (b : code_unit) :
  word_after_spaces s = Some (k, b) -> k < List.length s.
Proof.
  intros H. apply word_after_spaces_nth in H.
  apply nth_error_Some. congruence.
Qed.

Lemma punctuation_then_word_at_length (s : jsstring) (k : nat)
      (r : jsstring) :
  punctuation_then_word_at s = Some (k, r) -> 0 < k <= List.length s.
Proof.
  destruct s as [|a s]; cbn [punctuation_then_word_at]; [discriminate|].
  destruct (one_of _ a); [|discriminate].
  destruct (word_after_spaces s) as [[k' b]|] eqn:E; [|discriminate].
  intros [= <- <-]. apply word_after_spaces_length in E.
  cbn [List.length]. lia.
Qed.

Lemma walk_split (pre : jsstring) :
  forall skip : nat,
    skip <= List.length pre ->
    walk punctuation_then_word_at skip (pre ++ p :: w :: post)
    = walk punctuation_then_word_at skip pre
        ++ [p; 32%N; w] ++ walk punctuation_then_word_at 0 post.
Proof.
  induction pre as [|c pre IH]; intros skip Hskip.
  - simpl in Hskip. replace skip with 0 by lia.
    cbn [app walk]. rewrite punctuation_then_word_at_here.
    reflexivity.
  - rewrite <- app_comm_cons. cbn [walk]. destruct skip as [|k].
    + rewrite app_comm_cons.
      rewrite punctuation_then_word_at_stops by discriminate.
      destruct (punctuation_then_word_at (c :: pre)) as [[k r]|] eqn:E.
      * apply punctuation_then_word_at_length in E. simpl in E.
        rewrite IH by lia. now rewrite <- app_assoc.
      * rewrite IH by lia. reflexivity.
    + apply IH. simpl in Hskip. lia.
Qed.
End SecondPassSplit.

(* ================================================================== *)
(** * The rule for their, there and they're *)
(* ================================================================== *)

Section LiteralFacts.
Variable input : jsstring.
Variable ignoreCase : bool.

(** A literal matches the characters that are equal to its own up to
    case, and goes on after them. *)
Lemma literal_matches (w : jsstring) :
  forall (x : state) (c : continuation) (z : state),
    matcher input ignoreCase (literal w) x c = Some z ->
    c (mkState (endIndex x + List.length w) (captures x)) = Some z
    /\ Forall2 (fun a ch => canonicalize ignoreCase a
                            = canonicalize ignoreCase ch)
         (segment input (endIndex x) (endIndex x + List.length w)) w.
Proof.
  induction w as [|ch w IH]; intros [e caps] c z; cbn [literal].
  - rewrite matcher_Empty. cbn [endIndex captures List.length].
    rewrite Nat.add_0_r, segment_nil. split; [assumption | constructor].
  - rewrite matcher_Seq, matcher_Char. cbn [endIndex captures List.length].
    destruct (nth_error input e) as [a|] eqn:Ha; [|discriminate].
    destruct (code_unit_eqb _ _) eqn:E; [|discriminate].
    intros H. apply IH in H. cbn [advance endIndex captures] in H.
    destruct H as (Hc & HF).
    replace (e + S (List.length w)) with (S e + List.length w) by lia.
    split; [exact Hc|].
    rewrite (@segment_cons input e (S e + List.length w) a Ha) by lia.
    constructor; [|exact HF].
    now apply N.eqb_eq in E.
Qed.
End LiteralFacts.

Lemma lower_unit_of_match (a ch : code_unit) :
  small_or_apostrophe ch ->
  canonicalize true a = canonicalize true ch ->
  JSString.lower_unit a = ch.
Proof.
  unfold small_or_apostrophe, canonicalize, JSString.upper_unit,
    JSString.lower_unit.
  intros Hch.
  destruct ((97 <=? a) && (a <=? 122))%N eqn:Ea;
    destruct ((97 <=? ch) && (ch <=? 122))%N eqn:Ec;
    destruct ((65 <=? a) && (a <=? 90))%N eqn:Eu;
    rewrite ?andb_true_iff, ?andb_false_iff, ?N.leb_le, ?N.leb_gt in *;
    lia.
Qed.

Lemma toLowerCase_of_match (m w : jsstring) :
  Forall small_or_apostrophe w ->
  Forall2 (fun a ch => canonicalize true a = canonicalize true ch) m w ->
  JSString.toLowerCase m = w.
Proof.
  intros Hw HF. induction HF as [|a ch m w Ha HF IH]; [reflexivity|].
  inversion Hw; subst. simpl. f_equal; auto using lower_unit_of_match.
Qed.

Lemma their_words_small :
  Forall small_or_apostrophe (js "their")
  /\ Forall small_or_apostrophe (js "there")
  /\ Forall small_or_apostrophe (js "they're").
Proof.
  unfold small_or_apostrophe. simpl.
  repeat split; repeat constructor; lia.
Qed.

(** What [their_there_pattern] matches is one of the three words up to
    case. *)
Lemma their_there_matched (input : jsstring) (i : nat) (y : state) :
  match_at input true their_there_pattern i = Some y ->
  JSString.toLowerCase (substring input i (endIndex y)) = js "their"
  \/ JSString.toLowerCase (substring input i (endIndex y)) = js "there"
  \/ JSString.toLowerCase (substring input i (endIndex y)) = js "they're".
Proof.
  destruct their_words_small as (H1 & H2 & H3).
  unfold match_at, their_there_pattern, whole, word.
  rewrite matcher_Seq, matcher_WordBoundary.
  destruct (xorb _ _); [|discriminate].
  rewrite matcher_Seq, matcher_Group, !matcher_Alt.
  cbn [endIndex captures].
  assert (Hword : forall w,
    matcher input true (literal w)
      (mkState i no_captures)
      (fun y0 => matcher input true WordBoundary
                   (mkState (endIndex y0)
                      (set_capture 1 (i, endIndex y0) (captures y0))) Some)
    = Some y ->
    Forall small_or_apostrophe w ->
    JSString.toLowerCase (substring input i (endIndex y)) = w).
  { intros w H Hw. apply literal_matches in H.
    cbn [endIndex captures] in H. destruct H as (Hc & HF).
    rewrite matcher_WordBoundary in Hc.
    destruct (xorb _ _); [|discriminate].
    injection Hc as <-. cbn [endIndex].
    now apply toLowerCase_of_match. }
  destruct (matcher input true (literal (js "their")) _ _) eqn:E1.
  { intros [= ->]. left. now apply Hword. }
  destruct (matcher input true (literal (js "there")) _ _) eqn:E2.
  { intros [= ->]. right. left. now apply Hword. }
  intros E3. right. right. now apply Hword.
Qed.

Lemma their_there_lower (m : jsstring) :
  JSString.toLowerCase m = js "their"
  \/ JSString.toLowerCase m = js "there"
  \/ JSString.toLowerCase m = js "they're" ->
  their_there m = lowerCaseMatch m.
Proof.
  unfold their_there, lowerCaseMatch.
  intros [H|[H|H]]; rewrite H; reflexivity.
Qed.

Section BuildCompare.
Variable input : jsstring.

(** [build] depends on the replacement only at the matches. *)
Lemma build_ext (v1 v2 : replaceValue) (rs : list (nat * state)) :
  (forall i y, In (i, y) rs ->
     replacement_for v1 (substring input i (endIndex y))
       (capture_string input y)
     = replacement_for v2 (substring input i (endIndex y))
         (capture_string input y)) ->
  forall nextSourcePosition accumulatedResult,
    build v1 input rs nextSourcePosition accumulatedResult
    = build v2 input rs nextSourcePosition accumulatedResult.
Proof.
  induction rs as [|[i y] rs IH]; intros Hr nsp acc; simpl; trivial.
  rewrite (Hr i y (or_introl eq_refl)).
  destruct (replacement_for v2 _ _) as [r|e]; simpl; trivial.
  destruct (Nat.leb nsp i); apply IH; intros; apply Hr; now right.
Qed.

(** When every match is replaced by itself the text comes out as it
    was. *)
Lemma build_identity (v : replaceValue) (ignoreCase : bool) (re : regex)
      (rs : list (nat * state)) (from : nat) :
  chained input ignoreCase re from rs ->
  (forall i y, In (i, y) rs ->
     replacement_for v (substring input i (endIndex y))
       (capture_string input y)
     = Normal (substring input i (endIndex y))) ->
  forall nextSourcePosition accumulatedResult,
    nextSourcePosition <= from ->
    build v input rs nextSourcePosition accumulatedResult
    = Normal (accumulatedResult
                ++ skipn nextSourcePosition input).
Proof.
  induction 1 as [from|from i y rs next H1 H2 H3 Hm H4 Hc IH];
    intros Hr nsp acc Hnsp; simpl.
  - now rewrite substring_segment, segment_to_end.
  - rewrite (Hr i y (or_introl eq_refl)). cbn [bind].
    destruct (Nat.leb_spec nsp i) as [_|]; [|lia].
    rewrite IH; [|intros; apply Hr; now right|lia].
    f_equal. rewrite <- !app_assoc. f_equal.
    rewrite !substring_segment.
    rewrite <- (segment_to_end input nsp), <- (segment_to_end input (endIndex y)).
    rewrite (@segment_split input nsp i (List.length input)) by lia.
    rewrite (@segment_split input i (endIndex y) (List.length input)) by lia.
    reflexivity.
Qed.
End BuildCompare.

Lemma toLowerCase_segment (s : jsstring) (a b : nat) :
  JSString.toLowerCase s = s ->
  JSString.toLowerCase (segment s a b) = segment s a b.
Proof.
  unfold JSString.toLowerCase, segment. intros H.
  now rewrite <- firstn_map, <- skipn_map, H.
Qed.

(* ================================================================== *)
(** * No mark is left glued to a word *)
(* ================================================================== *)

Lemma separated_cons (a : code_unit) (s : jsstring) :
  separated (a :: s)
  = match s with
    | [] => true
    | b :: _ => negb (glued a b)
    end && separated s.
Proof. reflexivity. Qed.

Lemma separated_app_r (l1 l2 : jsstring) :
  separated (l1 ++ l2) = true -> separated l2 = true.
Proof.
  induction l1 as [|a l1 IH]; [trivial|].
  rewrite <- app_comm_cons, separated_cons, andb_true_iff.
  intros [_ H]. now apply IH.
Qed.

Lemma separated_app_l (l1 l2 : jsstring) :
  separated (l1 ++ l2) = true -> separated l1 = true.
Proof.
  induction l1 as [|a l1 IH]; [trivial|].
  rewrite <- app_comm_cons, !separated_cons, !andb_true_iff.
  intros [Ha H]. split; [|now apply IH].
  destruct l1; [reflexivity | exact Ha].
Qed.

(** What [separated] says, in terms of the text. *)
Lemma separated_spec (s : jsstring) :
  separated s = true <->
  forall (l1 l2 : jsstring) (a b : code_unit),
    s = l1 ++ a :: b :: l2 -> glued a b = false.
Proof.
  split.
  - intros Hs l1 l2 a b ->. apply separated_app_r in Hs.
    rewrite separated_cons, andb_true_iff, negb_true_iff in Hs. tauto.
  - induction s as [|a s IH]; intros H; [reflexivity|].
    rewrite separated_cons, andb_true_iff. split.
    + destruct s as [|b s]; [reflexivity|].
      rewrite negb_true_iff. now apply (H [] s a b).
    + apply IH. intros l1 l2 a' b' ->.
      now apply (H (a :: l1) l2 a' b').
Qed.

Lemma glued_space_l (b : code_unit) : glued 32%N b = false.
Proof. reflexivity. Qed.

Lemma glued_space_r (a : code_unit) : glued a 32%N = false.
Proof. unfold glued. simpl. apply andb_false_r. Qed.

Lemma glued_word_l (a b : code_unit) :
  is_word_char a = true -> glued a b = false.
Proof.
  intros Ha. unfold glued.
  destruct (one_of (js ".!?") a) eqn:E; [|reflexivity].
  apply punctuation_classes in E. destruct E as [_ E]. congruence.
Qed.

(** The second pass puts out the first character of a text first. *)
Lemma walk_punctuation_head (s : jsstring) :
  hd_error (walk punctuation_then_word_at 0 s) = hd_error s.
Proof.
  destruct s as [|c s]; [reflexivity|]. cbn [walk].
  destruct (punctuation_then_word_at (c :: s)) as [[k r]|] eqn:E;
    [|reflexivity].
  cbn [punctuation_then_word_at] in E.
  destruct (one_of _ c); [|discriminate].
  destruct (word_after_spaces s) as [[k' b]|]; [|discriminate].
  now injection E as <- <-.
Qed.

Lemma word_after_spaces_word (s : jsstring) (k : nat) (b : code_unit) :
  word_after_spaces s = Some (k, b) -> is_word_char b = true.
Proof.
  revert k. induction s as [|c s IH]; intros k; simpl; [discriminate|].
  destruct (JSString.is_whitespace c).
  - destruct (word_after_spaces s) as [[k' b']|]; [|discriminate].
    intros [= <- <-]. now apply (IH k').
  - destruct (is_word_char c) eqn:E; [|discriminate]. now intros [= <- <-].
Qed.

(** Where the second pass finds no match, the mark and the word character
    are not neighbours. *)
Lemma unmatched_not_glued (c b : code_unit) (s : jsstring) :
  punctuation_then_word_at (c :: b :: s) = None -> glued c b = false.
Proof.
  cbn [punctuation_then_word_at word_after_spaces]. unfold glued.
  destruct (one_of _ c); [|reflexivity].
  destruct (is_word_char b) eqn:Eb; [|reflexivity].
  destruct (JSString.is_whitespace b) eqn:Ew.
  - apply whitespace_not_word in Ew. congruence.
  - discriminate.
Qed.

Lemma walk_punctuation_separated (s : jsstring) :
  forall skip : nat, separated (walk punctuation_then_word_at skip s) = true.
Proof.
  induction s as [|c s IH]; intros skip; [reflexivity|].
  cbn [walk]. destruct skip as [|k]; [|apply IH].
  destruct (punctuation_then_word_at (c :: s)) as [[k r]|] eqn:E.
  - cbn [punctuation_then_word_at] in E.
    destruct (one_of _ c); [|discriminate].
    destruct (word_after_spaces s) as [[k' b]|] eqn:Ew; [|discriminate].
    injection E as <- <-.
    apply word_after_spaces_word in Ew.
    cbn [app Nat.pred]. rewrite !separated_cons, IH.
    rewrite glued_space_r, glued_space_l.
    destruct (walk _ _ s) as [|d t]; [reflexivity|].
    now rewrite (@glued_word_l b d Ew).
  - rewrite separated_cons, IH, andb_true_r.
    pose proof (walk_punctuation_head s) as Hh.
    destruct (walk _ 0 s) as [|b t]; [reflexivity|].
    destruct s as [|b' s]; [discriminate|]. injection Hh as ->.
    now rewrite (@unmatched_not_glued c _ s E).
Qed.

(** The third pass: a run of white space is taken whole. *)
Lemma spaces_all (input : jsstring) (n : nat) :
  forall x : state,
    List.length input - endIndex x <= n ->
    RepeatMatcher (matcher input false whitespace) Some n x
    = Some (mkState (endIndex x + leading_spaces (skipn (endIndex x) input))
              (captures x)).
Proof.
  induction n as [|n IH]; intros [e caps] Hn; cbn [endIndex captures] in *.
  - simpl. rewrite skipn_all2 by lia. simpl. now rewrite Nat.add_0_r.
  - cbn [RepeatMatcher]. unfold whitespace at 1. rewrite matcher_Class.
    cbn [endIndex].
    destruct (nth_error input e) as [a|] eqn:Ha.
    + rewrite (@skipn_nth_error _ _ _ _ Ha). cbn [leading_spaces].
      destruct (JSString.is_whitespace a).
      * cbn [advance endIndex captures].
        destruct (Nat.eqb_spec (S e) e) as [E|_]; [lia|].
        rewrite IH by (simpl; lia). cbn [endIndex captures].
        now replace (e + S (leading_spaces (skipn (S e) input)))
          with (S e + leading_spaces (skipn (S e) input)) by lia.
      * now rewrite Nat.add_0_r.
    + apply nth_error_None in Ha. rewrite skipn_all2 by lia. simpl.
      now rewrite Nat.add_0_r.
Qed.

Lemma whitespace_run_looks_ahead :
  looks_ahead whitespace_run false (ReplaceString (js " "))
    whitespace_run_at.
Proof.
  intros input i Hi. unfold match_at, whitespace_run, Plus.
  rewrite matcher_Seq. unfold whitespace at 1. rewrite matcher_Class.
  cbn [endIndex]. unfold whitespace_run_at.
  destruct (nth_error input i) as [a|] eqn:Ha.
  - rewrite (@skipn_nth_error _ _ _ _ Ha). cbn [leading_spaces].
    destruct (JSString.is_whitespace a); trivial.
    rewrite matcher_Star, spaces_all by (simpl; lia).
    cbn [advance endIndex captures].
    exists (leading_spaces (skipn (S i) input)), [32%N].
    cbn [endIndex]. repeat split. lia.
  - apply nth_error_None in Ha. now rewrite skipn_all2 by lia.
Qed.

Lemma walk_whitespace_head (c : code_unit) (s : jsstring) :
  hd_error (walk whitespace_run_at 0 (c :: s))
  = Some (if JSString.is_whitespace c then 32%N else c).
Proof.
  cbn [walk]. unfold whitespace_run_at. cbn [leading_spaces].
  now destruct (JSString.is_whitespace c).
Qed.

Lemma walk_whitespace_separated (s : jsstring) :
  forall skip : nat,
    separated s = true ->
    separated (walk whitespace_run_at skip s) = true.
Proof.
  induction s as [|c s IH]; intros skip Hs; [reflexivity|].
  rewrite separated_cons, andb_true_iff in Hs. destruct Hs as [Hc Hs].
  cbn [walk]. destruct skip as [|k]; [|now apply IH].
  unfold whitespace_run_at at 1. cbn [leading_spaces].
  destruct (JSString.is_whitespace c).
  - cbn [app Nat.pred]. rewrite separated_cons, IH by assumption.
    destruct (walk _ _ s); [reflexivity|]. now rewrite glued_space_l.
  - rewrite separated_cons, IH, andb_true_r by assumption.
    destruct s as [|d s]; [reflexivity|].
    pose proof (walk_whitespace_head d s) as Hh.
    destruct (walk _ 0 (d :: s)) as [|b t]; [reflexivity|].
    injection Hh as ->.
    destruct (JSString.is_whitespace d); [|exact Hc].
    now rewrite glued_space_r.
Qed.

(** The capitalisation pass: a match ends in a small letter, which is the
    second group, and the first group is all that comes before it. *)
Lemma sentence_start_match (input : jsstring) (i : nat) (y : state) :
  match_at input false sentence_start i = Some y ->
  exists (e : nat) (a : code_unit),
    i <= e /\ nth_error input e = Some a /\ lower_case_letter a = true
    /\ endIndex y = S e
    /\ captures y 1 = Some (i, e) /\ captures y 2 = Some (e, S e).
Proof.
  unfold match_at, sentence_start.
  rewrite matcher_Seq, matcher_Group. cbn [endIndex captures]. intros H.
  apply matcher_reaches in H. destruct H as (y1 & H & Hle & _).
  cbn [endIndex] in Hle.
  rewrite matcher_Group, matcher_Class in H. cbn [endIndex captures] in H.
  destruct (nth_error input (endIndex y1)) as [a|] eqn:Ha; [|discriminate].
  destruct (lower_case_letter a) eqn:El; [|discriminate].
  injection H as <-. exists (endIndex y1), a. cbn. repeat split; auto.
Qed.

Lemma Forall2_same (A : Type) (R : A -> A -> Prop) (l : list A) :
  (forall a, R a a) -> Forall2 R l l.
Proof. intros HR. induction l; constructor; auto. Qed.

Section BuildPointwise.
Variable input : jsstring.
Variable R : code_unit -> code_unit -> Prop.
Hypothesis R_refl : forall a, R a a.

(** When every match gives way to a text related to it character by
    character, so is the result related to the input. *)
Lemma build_pointwise (v : replaceValue) (ignoreCase : bool) (re : regex)
      (rs : list (nat * state)) (from : nat) :
  chained input ignoreCase re from rs ->
  (forall i y, In (i, y) rs ->
     exists r,
       replacement_for v (substring input i (endIndex y))
         (capture_string input y) = Normal r
       /\ Forall2 R r (substring input i (endIndex y))) ->
  forall nextSourcePosition accumulatedResult,
    nextSourcePosition <= from ->
    exists t,
      build v input rs nextSourcePosition accumulatedResult
      = Normal (accumulatedResult ++ t)
      /\ Forall2 R t (skipn nextSourcePosition input).
Proof.
  induction 1 as [from|from i y rs next H1 H2 H3 Hm H4 Hc IH];
    intros Hr nsp acc Hnsp; simpl.
  - exists (skipn nsp input). rewrite substring_segment, segment_to_end.
    split; [reflexivity | now apply Forall2_same].
  - destruct (Hr i y (or_introl eq_refl)) as (r & -> & HF). cbn [bind].
    destruct (Nat.leb_spec nsp i) as [_|]; [|lia].
    destruct (IH (fun i' y' Hin => Hr i' y' (or_intror Hin))
                (endIndex y) (acc ++ substring input nsp i ++ r))
      as (t & -> & Ht); [lia|].
    exists (substring input nsp i ++ r ++ t). split.
    + now rewrite <- !app_assoc.
    + rewrite <- (segment_to_end input nsp).
      rewrite (@segment_split input nsp i (List.length input)) by lia.
      rewrite (@segment_split input i (endIndex y) (List.length input))
        by lia.
      rewrite segment_to_end.
      apply Forall2_app; [now apply Forall2_same|].
      apply Forall2_app; assumption.
Qed.
End BuildPointwise.

Lemma letter_not_punctuation (x : code_unit) :
  (65 <= x <= 122)%N -> one_of (js ".!?") x = false.
Proof.
  intros Hx. unfold one_of, code_unit_eqb. simpl.
  rewrite !(proj2 (N.eqb_neq _ _)) by lia. reflexivity.
Qed.

Lemma small_letter_word (x : code_unit) :
  (97 <= x <= 122)%N -> is_word_char x = true.
Proof.
  intros Hx. unfold is_word_char.
  rewrite (proj2 (N.leb_le 97 x)), (proj2 (N.leb_le x 122)) by lia.
  reflexivity.
Qed.

Lemma capital_letter_word (x : code_unit) :
  (65 <= x <= 90)%N -> is_word_char x = true.
Proof.
  intros Hx. unfold is_word_char.
  rewrite (proj2 (N.leb_le 65 x)), (proj2 (N.leb_le x 90)) by lia.
  simpl. now rewrite orb_true_r.
Qed.

Lemma same_or_capital_classes (a b : code_unit) :
  same_or_capital a b ->
  one_of (js ".!?") a = one_of (js ".!?") b
  /\ is_word_char a = is_word_char b.
Proof.
  intros [->|[Hl ->]]; [now split|].
  unfold lower_case_letter in Hl.
  unfold JSString.upper_unit. rewrite Hl.
  apply andb_true_iff in Hl. destruct Hl as [H1 H2].
  apply N.leb_le in H1. apply N.leb_le in H2.
  rewrite !letter_not_punctuation by lia.
  rewrite (@capital_letter_word (b - 32)%N), (@small_letter_word b) by lia.
  now split.
Qed.

Lemma separated_pointwise (out s : jsstring) :
  Forall2 same_or_capital out s -> separated s = true ->
  separated out = true.
Proof.
  induction 1 as [|a b out s Hab HF IH]; [trivial|].
  rewrite !separated_cons, !andb_true_iff. intros [Hb Hs].
  split; [|now apply IH].
  destruct HF as [|a' b' out s Hab' HF]; [reflexivity|].
  apply same_or_capital_classes in Hab, Hab'.
  unfold glued in *. destruct Hab as [-> _], Hab' as [_ ->]. exact Hb.
Qed.

Lemma capitalize_pointwise (input : jsstring) :
  exists out,
    replace sentence_start false (ReplaceFunction capitalize) input
    = Normal out
    /\ Forall2 same_or_capital out input.
Proof.
  unfold replace, results.
  pose proof (@build_pointwise input same_or_capital
                (fun a => or_introl eq_refl)
                (ReplaceFunction capitalize) false sentence_start _ 0
                (collect_chained input false sentence_start
                   (S (S (List.length input))) 0)) as H.
  destruct H with (nextSourcePosition := 0)
                  (accumulatedResult := @nil code_unit) as (t & Hb & Ht).
  - intros i y Hin.
    eapply chained_In in Hin; [|apply collect_chained].
    apply sentence_start_match in Hin.
    destruct Hin as (e & a & Hie & Ha & Hl & He & Hc1 & Hc2).
    unfold replacement_for, capitalize, capture_string. rewrite Hc1, Hc2, He.
    eexists. split; [reflexivity|].
    change substring with segment.
    rewrite (@segment_split input i e (S e)) by lia.
    rewrite (@segment_one input e a Ha).
    apply Forall2_app.
    + apply Forall2_same. now left.
    + simpl. constructor; [|constructor]. right. now split.
  - lia.
  - exists t. split; [exact Hb | exact Ht].
Qed.

Lemma trimStart_suffix (s : jsstring) :
  exists l, s = l ++ JSString.trimStart s.
Proof.
  induction s as [|c s (l & IH)]; [now exists []|]. simpl.
  destruct (JSString.is_whitespace c).
  - exists (c :: l). simpl. now f_equal.
  - now exists [].
Qed.

Lemma trim_separated (s : jsstring) :
  separated s = true -> separated (JSString.trim s) = true.
Proof.
  intros Hs. unfold JSString.trim, JSString.trimEnd.
  destruct (trimStart_suffix s) as (l1 & H1).
  destruct (trimStart_suffix (rev (JSString.trimStart s))) as (l2 & H2).
  apply (f_equal (@rev code_unit)) in H2.
  rewrite rev_involutive, rev_app_distr in H2.
  rewrite H1 in Hs. apply separated_app_r in Hs.
  rewrite H2 in Hs. now apply separated_app_l in Hs.
Qed.

(** Whatever the text, the fallback corrector leaves no full stop,
    exclamation mark or question mark with a word character right after
    it. *)
Theorem fallback_separated (text out : jsstring) :
  enhancedFallbackCorrections text = Normal out -> separated out = true.
Proof.
  unfold enhancedFallbackCorrections. destruct text as [|c text].
  { now intros [= <-]. }
  destruct (applyCorrections corrections (c :: text)) as [s1|]; cbn [bind];
    [|discriminate].
  destruct (replace space_before_punctuation false _ s1) as [s2|];
    cbn [bind]; [|discriminate].
  rewrite (replace_walk punctuation_then_word_looks_ahead). cbn [bind].
  rewrite (replace_walk whitespace_run_looks_ahead). cbn [bind].
  destruct (capitalize_pointwise
              (walk whitespace_run_at 0
                 (walk punctuation_then_word_at 0 s2))) as (s5 & -> & HF).
  cbn [bind]. intros [= <-].
  apply trim_separated. apply (separated_pointwise HF).
  apply walk_whitespace_separated, walk_punctuation_separated.
Qed.

(* ================================================================== *)
(** * The rule for their, there and they're is not the identity *)
(* ================================================================== *)

Lemma toLowerCase_same_or_small (m : jsstring) :
  Forall2 same_or_small (JSString.toLowerCase m) m.
Proof. induction m; simpl; constructor; auto. now right. Qed.

(** C2 as the specification states it fails: the rule changes a match
    written with a capital letter. *)
Lemma their_there_not_identity :
  replace their_there_pattern true (ReplaceFunction their_there)
    (js "I saw Their dog")
  <> Normal (js "I saw Their dog").
Proof. vm_compute. discriminate. Qed.

Example their_there_capital :
  replace their_there_pattern true (ReplaceFunction their_there)
    (js "I saw Their dog, THERE")
  = Normal (js "I saw their dog, there").
Proof. vm_compute. reflexivity. Qed.

Example fallback_their_capital :
  enhancedFallbackCorrections (js "I saw Their dog")
  = Normal (js "I saw their dog").
Proof. vm_compute. reflexivity. Qed.

(** C2, amended.  The rule for their, there and they're writes every
    match in small letters and leaves the rest of the text as it is: it
    does what the rule with [match => match.toLowerCase()] does, and what
    it returns differs from the text at most in the case of letters.  On
    a text that is its own lower case it changes nothing. *)
Theorem their_there_lower_cases (s : jsstring) :
  replace their_there_pattern true (ReplaceFunction their_there) s
  = replace their_there_pattern true (ReplaceFunction lowerCaseMatch) s
  /\ (exists out,
        replace their_there_pattern true (ReplaceFunction their_there) s
        = Normal out
        /\ Forall2 same_or_small out s)
  /\ (JSString.toLowerCase s = s ->
      replace their_there_pattern true (ReplaceFunction their_there) s
      = Normal s).
Proof.
  assert (Hsame :
    replace their_there_pattern true (ReplaceFunction their_there) s
    = replace their_there_pattern true (ReplaceFunction lowerCaseMatch) s).
  { unfold replace. apply build_ext. intros i y Hin.
    eapply chained_In in Hin; [|apply collect_chained].
    apply their_there_matched in Hin. simpl.
    now rewrite their_there_lower. }
  split; [exact Hsame|]. rewrite Hsame. split.
  - unfold replace, results.
    pose proof (@build_pointwise s same_or_small
                  (fun a => or_introl eq_refl)
                  (ReplaceFunction lowerCaseMatch) true their_there_pattern
                  _ 0
                  (collect_chained s true their_there_pattern
                     (S (S (List.length s))) 0)) as H.
    destruct H with (nextSourcePosition := 0)
                    (accumulatedResult := @nil code_unit) as (t & Hb & Ht).
    + intros i y _. eexists. split; [reflexivity|].
      apply toLowerCase_same_or_small.
    + lia.
    + exists t. split; [exact Hb | exact Ht].
  - intros Hs. unfold replace, results.
    erewrite build_identity; [reflexivity | apply collect_chained | | lia].
    intros i y _. simpl. unfold lowerCaseMatch.
    rewrite substring_segment. now rewrite toLowerCase_segment.
Qed.

Lemma their_there_lower_cases_witness :
  replace their_there_pattern true (ReplaceFunction their_there)
    (js "they're over there with their dog")
  = Normal (js "they're over there with their dog").
Proof.
  apply (proj2 (proj2 (their_there_lower_cases
                         (js "they're over there with their dog")))).
  reflexivity.
Defined.

(* ================================================================== *)
(** * The second pass splits a mark from the word after it *)
(* ================================================================== *)

(** C9.  The second punctuation pass puts a space between a full stop,
    exclamation mark or question mark and a word character that follows it
    at once, wherever they stand in the text: the text before them and the
    text after them come out as the pass leaves each of them on its own.
    No later pass takes the space away: in what the fallback corrector
    returns, for any text, no such mark has a word character right after
    it.  So [enhancedFallbackCorrections("3.14")] is ["3. 14"]. *)
Theorem second_pass_separates (pre post : jsstring) (p w : code_unit) :
  one_of (js ".!?") p = true ->
  is_word_char w = true ->
  (exists out_pre out_post : jsstring,
      replace punctuation_then_word false (ReplaceString (js "$1 $2")) pre
      = Normal out_pre
      /\ replace punctuation_then_word false (ReplaceString (js "$1 $2")) post
         = Normal out_post
      /\ replace punctuation_then_word false (ReplaceString (js "$1 $2"))
           (pre ++ p :: w :: post)
         = Normal (out_pre ++ [p; 32%N; w] ++ out_post))
  /\ (forall (text out l1 l2 : jsstring) (a b : code_unit),
         enhancedFallbackCorrections text = Normal out ->
         out = l1 ++ a :: b :: l2 ->
         one_of (js ".!?") a = true -> is_word_char b = true -> False)
  /\ enhancedFallbackCorrections (js "3.14") = Normal (js "3. 14").
Proof.
  intros Hp Hw. split; [|split; [|vm_compute; reflexivity]].
  - exists (walk punctuation_then_word_at 0 pre),
           (walk punctuation_then_word_at 0 post).
    rewrite !(replace_walk punctuation_then_word_looks_ahead).
    repeat split. f_equal. apply walk_split; auto. lia.
  - intros text out l1 l2 a b Hout Hl Ha Hb.
    apply fallback_separated in Hout.
    rewrite separated_spec in Hout. specialize (Hout l1 l2 a b Hl).
    unfold glued in Hout. rewrite Ha, Hb in Hout. discriminate.
Qed.

Lemma second_pass_separates_witness :
  (exists out_pre out_post : jsstring,
      replace punctuation_then_word false (ReplaceString (js "$1 $2"))
        (js "pi is 3")
      = Normal out_pre
      /\ replace punctuation_then_word false (ReplaceString (js "$1 $2"))
           (js "4.Or so") = Normal out_post
      /\ replace punctuation_then_word false (ReplaceString (js "$1 $2"))
           (js "pi is 3" ++ 46%N :: 49%N :: js "4.Or so")
         = Normal (out_pre ++ [46%N; 32%N; 49%N] ++ out_post))
  /\ (forall (text out l1 l2 : jsstring) (a b : code_unit),
         enhancedFallbackCorrections text = Normal out ->
         out = l1 ++ a :: b :: l2 ->
         one_of (js ".!?") a = true -> is_word_char b = true -> False)
  /\ enhancedFallbackCorrections (js "3.14") = Normal (js "3. 14").
Proof.
  apply (@second_pass_separates (js "pi is 3") (js "4.Or so") 46%N 49%N);
    reflexivity.
Defined.

Example second_pass_decimal :
  replace punctuation_then_word false (ReplaceString (js "$1 $2"))
    (js "pi is 3.14.Or so")
  = Normal (js "pi is 3. 14. Or so").
Proof. vm_compute. reflexivity. Qed.

Example fallback_abbreviation :
  enhancedFallbackCorrections (js "see e.g. the U.S.A. and v1.2")
  = Normal (js "See e. G. The U. S. A. And v1. 2").
Proof. vm_compute. reflexivity. Qed.

(* ================================================================== *)
(** * More texts through the fallback corrector *)
(* ================================================================== *)

Example fallback_empty : enhancedFallbackCorrections [] = Normal [].
Proof. reflexivity. Qed.

Example fallback_correct_text :
  enhancedFallbackCorrections (js "I like it.") = Normal (js "I like it.").
Proof. vm_compute. reflexivity. Qed.

Example fallback_standalone_i :
  enhancedFallbackCorrections (js "hi, i think i'm in")
  = Normal (js "Hi, I think I'm in").
Proof. vm_compute. reflexivity. Qed.

Example fallback_could_of :
  enhancedFallbackCorrections (js "she Could of runned , alot !")
  = Normal (js "She Could have ran, a lot!").
Proof. vm_compute. reflexivity. Qed.

Example fallback_spaces :
  enhancedFallbackCorrections
    (9%N :: js "  what ?yes  .  no" ++ [10%N; 32%N])
  = Normal (js "What? Yes. No").
Proof. vm_compute. reflexivity. Qed.

(* ================================================================== *)
(** * More on the order of the findings *)
(* ================================================================== *)

Lemma insert_sorted_descending (x : Match) (l : list Match) :
  StronglySorted offset_not_below l ->
  StronglySorted offset_not_below (insert_sorted by_offset_descending x l).
Proof.
  induction 1 as [|y l Hl IH Hy]; simpl.
  - repeat constructor.
  - unfold by_offset_descending.
    destruct (Z.leb_spec (offset y - offset x) 0) as [Hle|Hgt].
    + constructor; [now constructor|].
      constructor; [unfold offset_not_below; lia|].
      eapply Forall_impl; [|exact Hy].
      unfold offset_not_below. intros z Hz. lia.
    + constructor; [exact IH|].
      apply Forall_insert_sorted; [unfold offset_not_below; lia | exact Hy].
Qed.

Lemma sort_descending (ms : list Match) :
  StronglySorted offset_not_below (sort by_offset_descending ms).
Proof.
  induction ms as [|x ms IH]; simpl; [constructor|].
  now apply insert_sorted_descending.
Qed.



(** Findings at different offsets in falling order are in strictly falling
    order. *)
Lemma descending_distinct (l : list Match) :
  StronglySorted offset_not_below l -> NoDup (map offset l) ->
  StronglySorted offset_above l.
Proof.
  induction 1 as [|x l Hl IH Hx]; intros Hnd; [constructor|].
  simpl in Hnd. apply NoDup_cons_iff in Hnd. destruct Hnd as [Hnin Hnd].
  constructor; [now apply IH|].
  rewrite Forall_forall in *. intros y Hy.
  specialize (Hx y Hy). unfold offset_not_below, offset_above in *.
  assert (offset y <> offset x).
  { intros E. apply Hnin. rewrite <- E. now apply in_map. }
  lia.
Qed.

(** A list in strictly falling order is the only such arrangement of its
    elements. *)
Lemma strictly_sorted_unique (l1 : list Match) :
  forall l2,
    StronglySorted offset_above l1 -> StronglySorted offset_above l2 ->
    Permutation l1 l2 -> l1 = l2.
Proof.
  induction l1 as [|x l1 IH]; intros l2 H1 H2 Hp.
  - apply Permutation_nil in Hp. now subst.
  - destruct l2 as [|y l2].
    { apply Permutation_sym, Permutation_nil in Hp. discriminate. }
    inversion H1 as [|? ? H1' Hx]; subst.
    inversion H2 as [|? ? H2' Hy]; subst.
    assert (Hxy : x = y).
    { assert (Hin1 : In x (y :: l2))
        by (eapply Permutation_in; [exact Hp | now left]).
      assert (Hin2 : In y (x :: l1))
        by (eapply Permutation_in;
            [apply Permutation_sym; exact Hp | now left]).
      destruct Hin1 as [E|Hin1]; [now symmetry|].
      destruct Hin2 as [E|Hin2]; [assumption|].
      rewrite Forall_forall in Hx, Hy.
      specialize (Hx y Hin2). specialize (Hy x Hin1).
      unfold offset_above in *. lia. }
    subst y. f_equal. apply IH; trivial.
    now apply Permutation_cons_inv in Hp.
Qed.

(** Whatever the order in which the service lists findings at different
    offsets, the result of the splice is the same. *)
Theorem splice_any_order (text : jsstring) (ms ms' : list Match) :
  Permutation ms ms' ->
  NoDup (map offset ms) ->
  applyMatches text ms = applyMatches text ms'.
Proof.
  intros Hp Hnd. unfold applyMatches. fold by_offset_descending.
  f_equal.
  assert (Hnd' : NoDup (map offset ms')).
  { eapply Permutation_NoDup; [|exact Hnd]. now apply Permutation_map. }
  apply strictly_sorted_unique.
  - apply descending_distinct; [apply sort_descending|].
    eapply Permutation_NoDup; [|exact Hnd].
    apply Permutation_map, sort_perm.
  - apply descending_distinct; [apply sort_descending|].
    eapply Permutation_NoDup; [|exact Hnd'].
    apply Permutation_map, sort_perm.
  - rewrite <- (sort_perm by_offset_descending ms).
    rewrite <- (sort_perm by_offset_descending ms'). exact Hp.
Qed.

Lemma splice_any_order_witness :
  applyMatches sample_text sample_matches
  = applyMatches sample_text (rev sample_matches).
Proof.
  apply splice_any_order.
  - apply Permutation_rev.
  - simpl. repeat constructor; simpl; intuition discriminate.
Defined.

(* ================================================================== *)
(** * Findings without a candidate, and findings that overlap *)
(* ================================================================== *)

Lemma insert_sorted_first (x : Match) (l : list Match) :
  Forall (offset_not_below x) l ->
  insert_sorted by_offset_descending x l = x :: l.
Proof.
  destruct 1 as [|y l Hy _]; [reflexivity|]. simpl.
  unfold by_offset_descending, offset_not_below in *.
  destruct (Z.leb_spec (offset y - offset x) 0); [reflexivity | lia].
Qed.

Lemma filter_insert_candidate (x : Match) (l : list Match) :
  StronglySorted offset_not_below l ->
  filter has_candidate (insert_sorted by_offset_descending x l)
  = if has_candidate x
    then insert_sorted by_offset_descending x (filter has_candidate l)
    else filter has_candidate l.
Proof.
  induction 1 as [|y l Hl IH Hy]; simpl.
  - now destruct (has_candidate x).
  - unfold by_offset_descending at 1.
    destruct (Z.leb_spec (offset y - offset x) 0) as [Hle|Hgt].
    + cbn [filter]. destruct (has_candidate x); [|reflexivity].
      symmetry. apply insert_sorted_first.
      assert (Hall : Forall (offset_not_below x) (y :: l)).
      { constructor; [unfold offset_not_below; lia|].
        eapply Forall_impl; [|exact Hy].
        unfold offset_not_below. intros z Hz. lia. }
      rewrite Forall_forall in *. intros z Hz. apply Hall.
      change (In z (filter has_candidate (y :: l))) in Hz.
      now apply filter_In in Hz.
    + cbn [filter]. rewrite IH.
      destruct (has_candidate y), (has_candidate x); try reflexivity.
      cbn [insert_sorted]. unfold by_offset_descending at 2.
      destruct (Z.leb_spec (offset y - offset x) 0); [lia | reflexivity].
Qed.

Lemma sort_filter_candidate (ms : list Match) :
  filter has_candidate (sort by_offset_descending ms)
  = sort by_offset_descending (filter has_candidate ms).
Proof.
  induction ms as [|x ms IH]; [reflexivity|]. cbn [sort filter].
  rewrite filter_insert_candidate by apply sort_descending.
  rewrite IH. now destruct (has_candidate x).
Qed.

Lemma fold_applyMatch_candidates (l : list Match) :
  forall s : jsstring,
    fold_left applyMatch l s
    = fold_left applyMatch (filter has_candidate l) s.
Proof.
  induction l as [|m l IH]; intros s; [reflexivity|].
  cbn [fold_left filter]. destruct (has_candidate m) eqn:E.
  - cbn [fold_left]. apply IH.
  - replace (applyMatch s m) with s; [apply IH|].
    unfold applyMatch, has_candidate in *.
    destruct (replacements m); [reflexivity | discriminate].
Qed.

(** A finding without a candidate has no part in the result: the list of
    the service can be read without such findings, wherever they lie. *)
Theorem splice_ignores_findings_without_candidate
        (text : jsstring) (ms : list Match) :
  applyMatches text ms = applyMatches text (filter has_candidate ms).
Proof.
  unfold applyMatches. fold by_offset_descending.
  rewrite fold_applyMatch_candidates, sort_filter_candidate. reflexivity.
Qed.

Lemma applyMatch_keeps_prefix (s : jsstring) (m : Match) (k : nat) :
  k <= List.length s -> (Z.of_nat k <= offset m)%Z ->
  k <= List.length (applyMatch s m)
  /\ firstn k (applyMatch s m) = firstn k s.
Proof.
  intros Hk Ho. unfold applyMatch.
  destruct (replacements m) as [|r rs]; [now split|]. cbv zeta.
  set (after := JSString.slice s (offset m + length m) None).
  assert (Hb : JSString.slice s 0 (Some (offset m))
               = firstn (Z.to_nat (Z.min (offset m)
                                     (Z.of_nat (List.length s)))) s).
  { unfold JSString.slice.
    rewrite (@clamp_in_range (Z.of_nat (List.length s)) 0) by lia.
    unfold JSString.clamp_index.
    destruct (Z.ltb_spec (offset m) 0); [lia|].
    now rewrite Z.sub_0_r. }
  rewrite Hb.
  set (a := Z.to_nat (Z.min (offset m) (Z.of_nat (List.length s)))).
  assert (Ha : k <= a <= List.length s) by (unfold a; lia).
  split.
  - rewrite length_app, length_firstn. lia.
  - rewrite firstn_app, firstn_firstn, length_firstn.
    replace (k - Nat.min a (List.length s)) with 0 by lia.
    rewrite Nat.min_l by lia. simpl. apply app_nil_r.
Qed.

Lemma fold_applyMatch_keeps_prefix (l : list Match) (k : nat) :
  Forall (fun m => (Z.of_nat k <= offset m)%Z) l ->
  forall s : jsstring,
    k <= List.length s ->
    firstn k (fold_left applyMatch l s) = firstn k s.
Proof.
  induction 1 as [|m l Hm Hl IH]; intros s Hk; [reflexivity|].
  cbn [fold_left].
  destruct (applyMatch_keeps_prefix s m Hk Hm) as (Hlen & Hpre).
  rewrite IH by exact Hlen. exact Hpre.
Qed.

(** The text before the first finding is never touched, even when the
    findings overlap or reach beyond the end of the text. *)
Theorem splice_keeps_prefix (text : jsstring) (ms : list Match) (k : nat) :
  k <= List.length text ->
  Forall (fun m => (Z.of_nat k <= offset m)%Z) ms ->
  firstn k (applyMatches text ms) = firstn k text.
Proof.
  intros Hk Hms. unfold applyMatches.
  apply fold_applyMatch_keeps_prefix; [|exact Hk].
  now apply Forall_sort.
Qed.

Lemma splice_keeps_prefix_witness :
  firstn 4 (applyMatches sample_text tangled_matches) = firstn 4 sample_text.
Proof.
  apply splice_keeps_prefix.
  - simpl. lia.
  - unfold tangled_matches. repeat constructor; simpl; lia.
Defined.

Example splice_tangled :
  applyMatches sample_text tangled_matches
  = js "She does notkes apple!".
Proof. reflexivity. Qed.

(* ================================================================== *)
(** * What the handler always does *)
(* ================================================================== *)

Lemma validation_outcomes (text : jsstring) :
  (JSString.trim text = [] \/ (5000 < Z.of_nat (List.length text))%Z)
  \/ (JSString.trim text <> [] /\ (Z.of_nat (List.length text) <= 5000)%Z).
Proof.
  destruct (list_eq_dec N.eq_dec (JSString.trim text) []) as [|Ht];
    [now left; left|].
  destruct (Z_lt_le_dec 5000 (Z.of_nat (List.length text))) as [|Hl];
    [now left; right | now right].
Qed.

(** The page facts of [page_rendered_unless_structured], on a page given
    in full. *)
Ltac page_facts :=
  eexists; (split; [reflexivity|]); simpl; repeat split; auto;
  solve [ discriminate
        | intros H; discriminate H
        | intros H; now destruct H ].

Lemma postCorrect_renders (service : jsstring -> axios_outcome)
      (body : option jsstring) (w : world) :
  exists l : locals,
    fst (postCorrect service body w) = Normal l
    /\ (hasResult l = true <-> corrected l <> None)
    /\ (hasResult l = false -> error l <> None)
    /\ (originalText l = [] \/ body = Some (originalText l)).
Proof.
  destruct body as [text|]; [|page_facts].
  destruct (validation_outcomes text) as [Hbad|[Ht Hl]].
  - destruct (@invalid_ValidationError service text w Hbad) as [[Hr|Hr] _];
      rewrite Hr; page_facts.
  - rewrite postCorrect_valid by assumption.
    destruct (enhancedFallbackCorrections_returns text) as (fb & Hfb).
    unfold try_catch, io_bind, correctWithLanguageTool, try_catch, io_bind,
      axios_post, lift, ret, throw.
    destruct (service text) as [[ms|]|e]; simpl; try rewrite Hfb;
      page_facts.
Qed.

(** When the [text] of the form is a string or is missing, the handler
    ends by rendering the page, whatever the service does: the page has a
    result exactly when it has a corrected text, it has a message when it
    has no result, and the text it shows again is the submitted one or
    none.  When the [text] is an array or an object, the handler renders
    nothing: it throws a [TypeError], and no request has been sent. *)
Theorem page_rendered_unless_structured
        (service : jsstring -> axios_outcome) (text : field) (w : world) :
  match text with
  | Structured =>
      exists message : jsstring,
        postCorrectField service text w = (Throw (TypeError message), w)
  | _ =>
      exists l : locals,
        fst (postCorrectField service text w) = Normal l
        /\ (hasResult l = true <-> corrected l <> None)
        /\ (hasResult l = false -> error l <> None)
        /\ (originalText l = [] \/ text = Text (originalText l))
  end.
Proof.
  destruct text as [|s|]; cbn [postCorrectField].
  - destruct (postCorrect_renders service None w) as (l & H1 & H2 & H3 & H4).
    exists l. repeat split; try tauto.
    destruct H4 as [H4|H4]; [now left|discriminate].
  - destruct (postCorrect_renders service (Some s) w)
      as (l & H1 & H2 & H3 & H4).
    exists l. repeat split; try tauto.
    destruct H4 as [H4|[= ->]]; [now left|now right].
  - eexists. reflexivity.
Qed.

(** For a text that passes validation the page carries no message exactly
    when the service delivered its findings, and the corrected text is
    then the splice of them. *)
Theorem message_iff_no_findings (service : jsstring -> axios_outcome)
        (text : jsstring) (w : world) (l : locals) :
  JSString.trim text <> [] ->
  (Z.of_nat (List.length text) <= 5000)%Z ->
  fst (postCorrect service (Some text) w) = Normal l ->
  (error l = None <-> exists ms, service text = Resolved (Some ms))
  /\ (forall ms, service text = Resolved (Some ms) ->
                 corrected l = Some (applyMatches text ms)).
Proof.
  intros Ht Hl. rewrite postCorrect_valid by assumption.
  unfold try_catch, io_bind, correctWithLanguageTool, try_catch, io_bind,
    axios_post, lift, ret, throw.
  destruct (service text) as [[ms|]|e]; simpl.
  - intros [= <-]. simpl. split.
    + split; [eauto | reflexivity].
    + now intros ms' [= <-].
  - destruct (enhancedFallbackCorrections text); simpl; [|discriminate].
    intros [= <-]. simpl. split.
    + split; [discriminate | intros (ms & H); discriminate].
    + discriminate.
  - destruct (enhancedFallbackCorrections text); simpl; [|discriminate].
    intros [= <-]. simpl. split.
    + split; [discriminate | intros (ms & H); discriminate].
    + discriminate.
Qed.

Lemma message_iff_no_findings_witness :
  (error (mkLocals (Some (js "She doesn't like an apple")) sample_text true
            None) = None
   <-> exists ms, Resolved (Some sample_matches) = Resolved (Some ms))
  /\ (forall ms, Resolved (Some sample_matches) = Resolved (Some ms) ->
                 corrected (mkLocals (Some (js "She doesn't like an apple"))
                              sample_text true None)
                 = Some (applyMatches sample_text ms)).
Proof.
  apply (@message_iff_no_findings (fun _ => Resolved (Some sample_matches))
           sample_text (mkWorld [])
           (mkLocals (Some (js "She doesn't like an apple")) sample_text
              true None)).
  - vm_compute. discriminate.
  - vm_compute. discriminate.
  - reflexivity.
Defined.

(** One submission makes at most one request to the service, for the
    submitted text as it is, and a text that passes validation makes
    one: there is no second attempt, whatever the first one gives. *)
Theorem at_most_one_request (service : jsstring -> axios_outcome)
        (body : option jsstring) (w : world) :
  (snd (postCorrect service body w) = w
   \/ exists text, body = Some text
                   /\ snd (postCorrect service body w)
                      = mkWorld (text :: requests w))
  /\ (forall text, body = Some text ->
        JSString.trim text <> [] ->
        (Z.of_nat (List.length text) <= 5000)%Z ->
        snd (postCorrect service body w) = mkWorld (text :: requests w)).
Proof.
  split.
  - destruct body as [text|]; [|now left].
    destruct (validation_outcomes text) as [Hbad|[Ht Hl]].
    + left. now destruct (@invalid_ValidationError service text w Hbad).
    + right. exists text. split; [reflexivity|].
      now apply postCorrect_requests_once.
  - intros text -> Ht Hl. now apply postCorrect_requests_once.
Qed.

(* ================================================================== *)
(** * Neighbouring characters *)
(* ================================================================== *)

Section Neighbours.
Variable ok : code_unit -> code_unit -> bool.

Lemma neighbours_cons (a : code_unit) (s : jsstring) :
  neighbours ok (a :: s)
  = match s with
    | [] => true
    | b :: _ => ok a b
    end && neighbours ok s.
Proof. reflexivity. Qed.

Lemma neighbours_app_r (l1 l2 : jsstring) :
  neighbours ok (l1 ++ l2) = true -> neighbours ok l2 = true.
Proof.
  induction l1 as [|a l1 IH]; [trivial|].
  rewrite <- app_comm_cons, neighbours_cons, andb_true_iff.
  intros [_ H]. now apply IH.
Qed.

Lemma neighbours_app_l (l1 l2 : jsstring) :
  neighbours ok (l1 ++ l2) = true -> neighbours ok l1 = true.
Proof.
  induction l1 as [|a l1 IH]; [trivial|].
  rewrite <- app_comm_cons, !neighbours_cons, !andb_true_iff.
  intros [Ha H]. split; [|now apply IH].
  destruct l1; [reflexivity | exact Ha].
Qed.

Lemma neighbours_spec (s : jsstring) :
  neighbours ok s = true <->
  forall (l1 l2 : jsstring) (a b : code_unit),
    s = l1 ++ a :: b :: l2 -> ok a b = true.
Proof.
  split.
  - intros Hs l1 l2 a b ->. apply neighbours_app_r in Hs.
    rewrite neighbours_cons, andb_true_iff in Hs. tauto.
  - induction s as [|a s IH]; intros H; [reflexivity|].
    rewrite neighbours_cons, andb_true_iff. split.
    + destruct s as [|b s]; [reflexivity|]. now apply (H [] s a b).
    + apply IH. intros l1 l2 a' b' ->. now apply (H (a :: l1) l2 a' b').
Qed.

(** A text put before another: the neighbours are those of the two and
    the pair where they meet. *)
Lemma neighbours_cons_head (a : code_unit) (s : jsstring) :
  (forall b, hd_error s = Some b -> ok a b = true) ->
  neighbours ok s = true -> neighbours ok (a :: s) = true.
Proof.
  intros Hh Hs. rewrite neighbours_cons, Hs, andb_true_r.
  destruct s as [|b s]; [reflexivity|]. now apply Hh.
Qed.

Lemma neighbours_tail (a : code_unit) (s : jsstring) :
  neighbours ok (a :: s) = true -> neighbours ok s = true.
Proof. rewrite neighbours_cons, andb_true_iff. tauto. Qed.

Lemma neighbours_head (a b : code_unit) (s : jsstring) :
  neighbours ok (a :: b :: s) = true -> ok a b = true.
Proof. rewrite neighbours_cons, andb_true_iff. tauto. Qed.

(** Texts alike character by character, for a likeness the test does not
    tell apart. *)
Lemma neighbours_pointwise (R : code_unit -> code_unit -> Prop)
      (out s : jsstring) :
  (forall a' a b' b, R a' a -> R b' b -> ok a b = true -> ok a' b' = true) ->
  Forall2 R out s -> neighbours ok s = true -> neighbours ok out = true.
Proof.
  intros HR. induction 1 as [|a' a out s Ha HF IH]; [trivial|].
  rewrite !neighbours_cons, !andb_true_iff. intros [Hb Hs].
  split; [|now apply IH].
  destruct HF as [|b' b out s Hb' HF]; [reflexivity|].
  now apply (HR a' a b' b).
Qed.
End Neighbours.

Lemma trimEnd_prefix (s : jsstring) :
  exists l, s = JSString.trimEnd s ++ l.
Proof.
  unfold JSString.trimEnd.
  destruct (trimStart_suffix (rev s)) as (l & H).
  exists (rev l). apply (f_equal (@rev code_unit)) in H.
  now rewrite rev_involutive, rev_app_distr in H.
Qed.

(** [trim] takes a piece out of the middle of a text. *)
Lemma trim_middle (s : jsstring) :
  exists l1 l2, s = l1 ++ JSString.trim s ++ l2.
Proof.
  unfold JSString.trim.
  destruct (trimStart_suffix s) as (l1 & H1).
  destruct (trimEnd_prefix (JSString.trimStart s)) as (l2 & H2).
  exists l1, l2. now rewrite <- H2.
Qed.

Lemma neighbours_trim (ok : code_unit -> code_unit -> bool) (s : jsstring) :
  neighbours ok s = true -> neighbours ok (JSString.trim s) = true.
Proof.
  destruct (trim_middle s) as (l1 & l2 & H). intros Hs.
  rewrite H in Hs. apply neighbours_app_r in Hs.
  now apply neighbours_app_l in Hs.
Qed.

(* ================================================================== *)
(** * White space in a pattern, and the first punctuation pass *)
(* ================================================================== *)

(** A run of white space before something that does not begin with white
    space is taken whole: giving a character back never helps. *)
Lemma spaces_then (input : jsstring) (c : continuation) (n : nat) :
  (forall y a, nth_error input (endIndex y) = Some a ->
               JSString.is_whitespace a = true -> c y = None) ->
  forall x : state,
    List.length input - endIndex x <= n ->
    RepeatMatcher (matcher input false whitespace) c n x
    = c (mkState (endIndex x + leading_spaces (skipn (endIndex x) input))
           (captures x)).
Proof.
  intros Hc. induction n as [|n IH]; intros [e caps] Hn;
    cbn [endIndex captures] in *.
  - simpl. rewrite skipn_all2 by lia. simpl. now rewrite Nat.add_0_r.
  - rewrite RepeatMatcher_S. unfold whitespace at 1. rewrite matcher_Class.
    cbn [endIndex].
    destruct (nth_error input e) as [a|] eqn:Ha.
    + rewrite (@skipn_nth_error _ _ _ _ Ha). cbn [leading_spaces].
      destruct (JSString.is_whitespace a) eqn:Hws.
      * cbn [advance endIndex captures].
        destruct (Nat.eqb_spec (S e) e) as [E|_]; [lia|].
        rewrite IH by (simpl; lia). cbn [endIndex captures].
        replace (e + S (leading_spaces (skipn (S e) input)))
          with (S e + leading_spaces (skipn (S e) input)) by lia.
        rewrite (Hc (mkState e caps) a Ha Hws).
        now destruct (c _).
      * now rewrite Nat.add_0_r.
    + apply nth_error_None in Ha. rewrite skipn_all2 by lia. simpl.
      now rewrite Nat.add_0_r.
Qed.

Lemma whitespace_not_mark (a : code_unit) :
  JSString.is_whitespace a = true -> one_of (js ".,!?") a = false.
Proof.
  unfold JSString.is_whitespace, one_of, code_unit_eqb. simpl. intros H.
  apply not_true_is_false. intros Hw.
  repeat rewrite ?orb_true_iff, ?andb_true_iff, ?N.leb_le, ?N.eqb_eq in *.
  lia.
Qed.

Lemma space_before_punctuation_looks_ahead :
  looks_ahead space_before_punctuation false (ReplaceString (js "$1"))
    space_before_punctuation_at.
Proof.
  intros input i Hi. unfold match_at, space_before_punctuation, Plus.
  rewrite !matcher_Seq. unfold whitespace at 1. rewrite matcher_Class.
  cbn [endIndex]. unfold space_before_punctuation_at.
  destruct (nth_error input i) as [a|] eqn:Ha.
  2:{ apply nth_error_None in Ha. now rewrite skipn_all2 by lia. }
  rewrite (@skipn_nth_error _ _ _ _ Ha). cbn [leading_spaces].
  destruct (JSString.is_whitespace a); trivial.
  rewrite matcher_Star, spaces_then; cbn [advance endIndex captures];
    [|..|lia].
  2:{ intros y b Hb Hws. rewrite matcher_Group, matcher_Class, Hb.
      now rewrite (whitespace_not_mark _ Hws). }
  rewrite matcher_Group, matcher_Class. cbn [endIndex captures nth_error].
  set (k := leading_spaces (skipn (S i) input)).
  rewrite nth_error_skipn.
  destruct (nth_error input (S i + k)) as [p|] eqn:Hp; trivial.
  destruct (one_of (js ".,!?") p); trivial.
  exists (S k), [p]. cbn [advance endIndex captures]. repeat split; [lia|].
  replace (S i + k) with (S (i + k)) in * by lia.
  unfold replacement_for, capture_string, set_capture. simpl.
  change substring with segment.
  now rewrite (@segment_one input _ p Hp).
Qed.

Lemma mark_classes (p : code_unit) :
  one_of (js ".,!?") p = true ->
  JSString.is_whitespace p = false /\ is_word_char p = false.
Proof.
  unfold one_of, code_unit_eqb. simpl. rewrite !orb_true_iff, !N.eqb_eq.
  intros [->|[->|[->|[->|H]]]]; [now split ..|discriminate].
Qed.

Lemma word_not_mark (b : code_unit) :
  is_word_char b = true -> one_of (js ".,!?") b = false.
Proof.
  intros Hb. destruct (one_of (js ".,!?") b) eqn:E; [|reflexivity].
  apply mark_classes in E. destruct E as [_ E]. congruence.
Qed.

Lemma word_not_whitespace (b : code_unit) :
  is_word_char b = true -> JSString.is_whitespace b = false.
Proof.
  intros Hb. destruct (JSString.is_whitespace b) eqn:E; [|reflexivity].
  apply whitespace_not_word in E. congruence.
Qed.

Lemma no_space_before_mark_l (a b : code_unit) :
  JSString.is_whitespace a = false -> no_space_before_mark a b = true.
Proof. intros H. unfold no_space_before_mark. now rewrite H. Qed.

Lemma no_space_before_mark_r (a b : code_unit) :
  one_of (js ".,!?") b = false -> no_space_before_mark a b = true.
Proof.
  intros H. unfold no_space_before_mark. rewrite H.
  now rewrite andb_false_r.
Qed.

(** What the first pass finds at a text, it finds at the text with one
    more white space character before it. *)
Lemma space_before_punctuation_at_more (c : code_unit) (s : jsstring)
      (k : nat) (r : jsstring) :
  JSString.is_whitespace c = true ->
  space_before_punctuation_at s = Some (k, r) ->
  space_before_punctuation_at (c :: s) = Some (S k, r).
Proof.
  unfold space_before_punctuation_at. cbn [leading_spaces]. intros ->.
  destruct (leading_spaces s) as [|n]; [discriminate|].
  change (nth_error (c :: s) (S (S n))) with (nth_error s (S n)).
  destruct (nth_error s (S n)) as [p|]; [|discriminate].
  destruct (one_of _ p); [|discriminate]. now intros [= <- <-].
Qed.

Lemma space_before_punctuation_at_mark (c d : code_unit) (s : jsstring) :
  JSString.is_whitespace c = true -> one_of (js ".,!?") d = true ->
  space_before_punctuation_at (c :: d :: s) = Some (2, [d]).
Proof.
  intros Hc Hd. unfold space_before_punctuation_at. cbn [leading_spaces].
  rewrite Hc. destruct (mark_classes _ Hd) as [-> _]. cbn [nth_error].
  now rewrite Hd.
Qed.

Lemma space_before_punctuation_at_shape (s : jsstring) (k : nat)
      (r : jsstring) :
  space_before_punctuation_at s = Some (k, r) ->
  exists k' p, k = S (S k') /\ r = [p] /\ one_of (js ".,!?") p = true.
Proof.
  unfold space_before_punctuation_at.
  destruct (leading_spaces s) as [|n]; [discriminate|].
  destruct (nth_error s (S n)) as [p|]; [|discriminate].
  destruct (one_of _ p) eqn:E; [|discriminate].
  intros [= <- <-]. eauto.
Qed.

(** The first thing the first pass puts out is a mark, where it finds a
    match, and the first character of the text elsewhere. *)
Lemma walk_space_before_head (d : code_unit) (s : jsstring) (b : code_unit) :
  hd_error (walk space_before_punctuation_at 0 (d :: s)) = Some b ->
  (exists k, space_before_punctuation_at (d :: s) = Some (k, [b]))
  \/ (space_before_punctuation_at (d :: s) = None /\ b = d).
Proof.
  cbn [walk].
  destruct (space_before_punctuation_at (d :: s)) as [[k r]|] eqn:E.
  - destruct (space_before_punctuation_at_shape _ E) as (k' & p & -> & -> & _).
    simpl. intros [= <-]. left. eauto.
  - simpl. intros [= <-]. now right.
Qed.

(** After the first pass no white space stands right before a mark. *)
Lemma walk_space_before_neighbours (s : jsstring) :
  forall skip : nat,
    neighbours no_space_before_mark
      (walk space_before_punctuation_at skip s) = true.
Proof.
  induction s as [|c s IH]; intros skip; [reflexivity|].
  cbn [walk]. destruct skip as [|k]; [|apply IH].
  destruct (space_before_punctuation_at (c :: s)) as [[k r]|] eqn:E.
  - destruct (space_before_punctuation_at_shape _ E) as (k' & p & -> & -> & Hp).
    cbn [app Nat.pred]. apply neighbours_cons_head; [|apply IH].
    intros b _. apply no_space_before_mark_l.
    now destruct (mark_classes _ Hp).
  - apply neighbours_cons_head; [|apply IH].
    intros b Hb.
    destruct (JSString.is_whitespace c) eqn:Hc;
      [|now apply no_space_before_mark_l].
    destruct (one_of (js ".,!?") b) eqn:Hm;
      [|now apply no_space_before_mark_r].
    exfalso. destruct s as [|d s]; [discriminate|].
    apply walk_space_before_head in Hb. destruct Hb as [(k & Hk)|(_ & ->)].
    + rewrite (space_before_punctuation_at_more _ _ Hc Hk) in E.
      discriminate.
    + rewrite (space_before_punctuation_at_mark _ _ s Hc Hm) in E.
      discriminate.
Qed.

(** The second pass brings no white space before a mark. *)
Lemma walk_punctuation_keeps_marks (s : jsstring) :
  forall skip : nat,
    neighbours no_space_before_mark s = true ->
    neighbours no_space_before_mark
      (walk punctuation_then_word_at skip s) = true.
Proof.
  induction s as [|c s IH]; intros skip Hs; [reflexivity|].
  pose proof (neighbours_tail _ _ _ Hs) as Hs'.
  cbn [walk]. destruct skip as [|k]; [|now apply IH].
  destruct (punctuation_then_word_at (c :: s)) as [[k r]|] eqn:E.
  - cbn [punctuation_then_word_at] in E.
    destruct (one_of _ c); [|discriminate].
    destruct (word_after_spaces s) as [[k' b]|] eqn:Ew; [|discriminate].
    injection E as <- <-. apply word_after_spaces_word in Ew.
    cbn [app Nat.pred].
    apply neighbours_cons_head.
    { intros b' [= <-]. now apply no_space_before_mark_r. }
    apply neighbours_cons_head.
    { intros b' [= <-]. apply no_space_before_mark_r.
      now apply word_not_mark. }
    apply neighbours_cons_head; [|now apply IH].
    intros b' _. apply no_space_before_mark_l.
    now apply word_not_whitespace.
  - apply neighbours_cons_head; [|now apply IH].
    intros b Hb. rewrite walk_punctuation_head in Hb.
    destruct s as [|d s]; [discriminate|]. injection Hb as ->.
    exact (neighbours_head _ _ _ _ Hs).
Qed.

(** What comes out first after a run of white space is skipped is what
    stood after the run. *)
Lemma walk_whitespace_after_run (s : jsstring) :
  forall c b,
    JSString.is_whitespace c = true ->
    neighbours no_space_before_mark (c :: s) = true ->
    hd_error (walk whitespace_run_at (leading_spaces s) s) = Some b ->
    JSString.is_whitespace b = false /\ one_of (js ".,!?") b = false.
Proof.
  induction s as [|d s IH]; intros c b Hc Hs; [discriminate|].
  cbn [leading_spaces].
  destruct (JSString.is_whitespace d) eqn:Hd.
  - cbn [walk]. apply (IH d b Hd). exact (neighbours_tail _ _ _ Hs).
  - rewrite walk_whitespace_head, Hd. intros [= <-].
    split; [exact Hd|].
    apply neighbours_head in Hs. unfold no_space_before_mark in Hs.
    rewrite Hc in Hs. cbn [andb] in Hs.
    now apply negb_true_iff in Hs.
Qed.

(** The third pass brings no white space before a mark. *)
Lemma walk_whitespace_keeps_marks (s : jsstring) :
  forall skip : nat,
    neighbours no_space_before_mark s = true ->
    neighbours no_space_before_mark (walk whitespace_run_at skip s) = true.
Proof.
  induction s as [|c s IH]; intros skip Hs; [reflexivity|].
  pose proof (neighbours_tail _ _ _ Hs) as Hs'.
  cbn [walk]. destruct skip as [|k]; [|now apply IH].
  unfold whitespace_run_at at 1. cbn [leading_spaces].
  destruct (JSString.is_whitespace c) eqn:Hc.
  - cbn [app Nat.pred]. apply neighbours_cons_head; [|now apply IH].
    intros b Hb. apply no_space_before_mark_r.
    now destruct (walk_whitespace_after_run s c Hc Hs Hb).
  - apply neighbours_cons_head; [|now apply IH].
    intros b _. now apply no_space_before_mark_l.
Qed.

Lemma letter_not_mark (x : code_unit) :
  (65 <= x <= 122)%N -> one_of (js ".,!?") x = false.
Proof.
  intros Hx. unfold one_of, code_unit_eqb. simpl.
  rewrite !(proj2 (N.eqb_neq _ _)) by lia. reflexivity.
Qed.

Lemma letter_not_whitespace (x : code_unit) :
  (65 <= x <= 122)%N -> JSString.is_whitespace x = false.
Proof.
  intros Hx. unfold JSString.is_whitespace.
  rewrite !(proj2 (N.eqb_neq _ _)) by lia.
  rewrite (proj2 (N.leb_gt x 13)) by lia.
  rewrite (proj2 (N.leb_gt 8192 x)) by lia.
  now rewrite andb_false_r.
Qed.

Lemma same_or_capital_space_mark (a b : code_unit) :
  same_or_capital a b ->
  JSString.is_whitespace a = JSString.is_whitespace b
  /\ one_of (js ".,!?") a = one_of (js ".,!?") b
  /\ (JSString.is_whitespace b = true -> a = b).
Proof.
  intros [->|[Hl ->]]; [now repeat split|].
  unfold lower_case_letter in Hl.
  unfold JSString.upper_unit. rewrite Hl.
  apply andb_true_iff in Hl. destruct Hl as [H1 H2].
  apply N.leb_le in H1. apply N.leb_le in H2.
  rewrite !letter_not_mark, !letter_not_whitespace by lia.
  repeat split. discriminate.
Qed.

(** The stages of the fallback corrector on a text that is not empty:
    the rules of the table, the three punctuation passes as passes from
    left to right, the capitalisation, which keeps every character or
    puts its capital, and [trim]. *)
Lemma fallback_stages (text out : jsstring) :
  enhancedFallbackCorrections text = Normal out ->
  (text = [] /\ out = [])
  \/ exists s1 s5,
       applyCorrections corrections text = Normal s1
       /\ replace sentence_start false (ReplaceFunction capitalize)
            (walk whitespace_run_at 0
               (walk punctuation_then_word_at 0
                  (walk space_before_punctuation_at 0 s1)))
          = Normal s5
       /\ Forall2 same_or_capital s5
            (walk whitespace_run_at 0
               (walk punctuation_then_word_at 0
                  (walk space_before_punctuation_at 0 s1)))
       /\ out = JSString.trim s5.
Proof.
  unfold enhancedFallbackCorrections. destruct text as [|c text].
  { intros [= <-]. now left. }
  intros H. right.
  destruct (applyCorrections corrections (c :: text)) as [s1|]; cbn [bind] in *;
    [|discriminate].
  rewrite (replace_walk space_before_punctuation_looks_ahead) in H.
  cbn [bind] in H.
  rewrite (replace_walk punctuation_then_word_looks_ahead) in H.
  cbn [bind] in H.
  rewrite (replace_walk whitespace_run_looks_ahead) in H. cbn [bind] in H.
  destruct (capitalize_pointwise
              (walk whitespace_run_at 0
                 (walk punctuation_then_word_at 0
                    (walk space_before_punctuation_at 0 s1))))
    as (s5 & Hs5 & HF).
  rewrite Hs5 in H. cbn [bind] in H. injection H as <-.
  exists s1, s5. auto.
Qed.

(** In what the fallback corrector returns no white space stands right
    before a full stop, comma, exclamation mark or question mark. *)
Theorem fallback_no_space_before_mark (text out : jsstring) :
  enhancedFallbackCorrections text = Normal out ->
  forall (l1 l2 : jsstring) (a b : code_unit),
    out = l1 ++ a :: b :: l2 ->
    JSString.is_whitespace a = true -> one_of (js ".,!?") b = true ->
    False.
Proof.
  intros Hout.
  assert (Hn : neighbours no_space_before_mark out = true).
  { apply fallback_stages in Hout.
    destruct Hout as [[_ ->]|(s1 & s5 & _ & _ & HF & ->)]; [reflexivity|].
    apply neighbours_trim.
    apply (neighbours_pointwise no_space_before_mark (R:=same_or_capital))
      with (2 := HF).
    - intros a' a b' b Ha Hb. unfold no_space_before_mark.
      destruct (same_or_capital_space_mark Ha) as (-> & _ & _).
      now destruct (same_or_capital_space_mark Hb) as (_ & -> & _).
    - apply walk_whitespace_keeps_marks, walk_punctuation_keeps_marks,
        walk_space_before_neighbours. }
  intros l1 l2 a b Hl Ha Hb.
  rewrite neighbours_spec in Hn. specialize (Hn l1 l2 a b Hl).
  unfold no_space_before_mark in Hn. rewrite Ha, Hb in Hn. discriminate.
Qed.

Lemma fallback_no_space_before_mark_witness :
  enhancedFallbackCorrections (js "well  , yes !no   ?ok .")
  = Normal (js "Well, yes! No? Ok.")
  /\ forall (l1 l2 : jsstring) (a b : code_unit),
       js "Well, yes! No? Ok." = l1 ++ a :: b :: l2 ->
       JSString.is_whitespace a = true -> one_of (js ".,!?") b = true ->
       False.
Proof.
  split; [vm_compute; reflexivity|].
  apply (@fallback_no_space_before_mark
           (js "well  , yes !no   ?ok .") (js "Well, yes! No? Ok.")).
  vm_compute. reflexivity.
Defined.

(* ================================================================== *)
(** * White space in what the fallback corrector returns *)
(* ================================================================== *)

Lemma no_double_space_l (a b : code_unit) :
  JSString.is_whitespace a = false -> no_double_space a b = true.
Proof. intros H. unfold no_double_space. now rewrite H. Qed.

Lemma no_double_space_r (a b : code_unit) :
  JSString.is_whitespace b = false -> no_double_space a b = true.
Proof.
  intros H. unfold no_double_space. rewrite H. now rewrite andb_false_r.
Qed.

(** What comes out first after a run of white space is skipped is no
    white space. *)
Lemma walk_whitespace_run_skipped (s : jsstring) (b : code_unit) :
  hd_error (walk whitespace_run_at (leading_spaces s) s) = Some b ->
  JSString.is_whitespace b = false.
Proof.
  induction s as [|d s IH]; [discriminate|]. cbn [leading_spaces].
  destruct (JSString.is_whitespace d) eqn:Hd.
  - cbn [walk]. exact IH.
  - rewrite walk_whitespace_head, Hd. now intros [= <-].
Qed.

Lemma walk_whitespace_step (c : code_unit) (s : jsstring) :
  walk whitespace_run_at 0 (c :: s)
  = if JSString.is_whitespace c
    then 32%N :: walk whitespace_run_at (leading_spaces s) s
    else c :: walk whitespace_run_at 0 s.
Proof.
  cbn [walk]. unfold whitespace_run_at at 1. cbn [leading_spaces].
  now destruct (JSString.is_whitespace c).
Qed.

(** After the third pass every white space is a single space. *)
Lemma walk_whitespace_single (s : jsstring) :
  forall skip : nat,
    neighbours no_double_space (walk whitespace_run_at skip s) = true
    /\ forallb plain_space (walk whitespace_run_at skip s) = true.
Proof.
  induction s as [|c s IH]; intros skip; [now split|].
  destruct skip as [|k]; [|apply IH].
  rewrite walk_whitespace_step.
  destruct (JSString.is_whitespace c) eqn:Hc.
  - destruct (IH (leading_spaces s)) as (Hn & Hp). split.
    + apply neighbours_cons_head; [|exact Hn].
      intros b Hb. apply no_double_space_r.
      now apply (walk_whitespace_run_skipped s).
    + cbn [forallb]. now rewrite Hp.
  - destruct (IH 0) as (Hn & Hp). split.
    + apply neighbours_cons_head; [|exact Hn].
      intros b _. now apply no_double_space_l.
    + cbn [forallb]. unfold plain_space at 1. now rewrite Hc, Hp.
Qed.

Lemma forallb_pointwise (f : code_unit -> bool)
      (R : code_unit -> code_unit -> Prop) (out s : jsstring) :
  (forall a' a, R a' a -> f a = true -> f a' = true) ->
  Forall2 R out s -> forallb f s = true -> forallb f out = true.
Proof.
  intros HR. induction 1 as [|a' a out s Ha HF IH]; [trivial|].
  cbn [forallb]. rewrite !andb_true_iff. intros [Hf Hs].
  split; [now apply (HR a' a) | now apply IH].
Qed.

(** In what the fallback corrector returns the only white space is the
    space character, and no two of them stand in a row. *)
Theorem fallback_single_spaces (text out : jsstring) :
  enhancedFallbackCorrections text = Normal out ->
  (forall (l1 l2 : jsstring) (a : code_unit),
      out = l1 ++ a :: l2 -> JSString.is_whitespace a = true -> a = 32%N)
  /\ (forall (l1 l2 : jsstring) (a b : code_unit),
         out = l1 ++ a :: b :: l2 ->
         JSString.is_whitespace a = true ->
         JSString.is_whitespace b = true -> False).
Proof.
  intros Hout.
  assert (H : neighbours no_double_space out = true
              /\ forallb plain_space out = true).
  { apply fallback_stages in Hout.
    destruct Hout as [[_ ->]|(s1 & s5 & _ & _ & HF & ->)]; [now split|].
    destruct (walk_whitespace_single
                (walk punctuation_then_word_at 0
                   (walk space_before_punctuation_at 0 s1)) 0) as (Hn & Hp).
    assert (Hn5 : neighbours no_double_space s5 = true).
    { apply (neighbours_pointwise no_double_space (R:=same_or_capital))
        with (2 := HF); [|exact Hn].
      intros a' a b' b Ha Hb. unfold no_double_space.
      destruct (same_or_capital_space_mark Ha) as (-> & _ & _).
      now destruct (same_or_capital_space_mark Hb) as (-> & _ & _). }
    assert (Hp5 : forallb plain_space s5 = true).
    { apply (forallb_pointwise plain_space (R:=same_or_capital))
        with (2 := HF); [|exact Hp].
      intros a' a Ha. unfold plain_space.
      destruct (same_or_capital_space_mark Ha) as (Hw & _ & He).
      rewrite Hw. destruct (JSString.is_whitespace a); [|reflexivity].
      now rewrite (He eq_refl). }
    split; [now apply neighbours_trim|].
    destruct (trim_middle s5) as (l1 & l2 & E). rewrite E in Hp5.
    rewrite !forallb_app, !andb_true_iff in Hp5. tauto. }
  destruct H as (Hn & Hp). split.
  - intros l1 l2 a -> Ha.
    rewrite forallb_app, andb_true_iff in Hp. destruct Hp as [_ Hp].
    cbn [forallb] in Hp. apply andb_true_iff in Hp. destruct Hp as [Hp _].
    unfold plain_space in Hp. rewrite Ha in Hp.
    now apply N.eqb_eq in Hp.
  - intros l1 l2 a b Hl Ha Hb.
    rewrite neighbours_spec in Hn. specialize (Hn l1 l2 a b Hl).
    unfold no_double_space in Hn. rewrite Ha, Hb in Hn. discriminate.
Qed.

Lemma fallback_single_spaces_witness :
  (forall (l1 l2 : jsstring) (a : code_unit),
      js "A b c" = l1 ++ a :: l2 ->
      JSString.is_whitespace a = true -> a = 32%N)
  /\ (forall (l1 l2 : jsstring) (a b : code_unit),
         js "A b c" = l1 ++ a :: b :: l2 ->
         JSString.is_whitespace a = true ->
         JSString.is_whitespace b = true -> False).
Proof.
  apply (@fallback_single_spaces
           (js "a  b" ++ [9%N; 160%N; 10%N] ++ js "c ") (js "A b c")).
  vm_compute. reflexivity.
Defined.

Lemma trimStart_head (s : jsstring) (c : code_unit) (rest : jsstring) :
  JSString.trimStart s = c :: rest -> JSString.is_whitespace c = false.
Proof.
  induction s as [|d s IH]; simpl; [discriminate|].
  destruct (JSString.is_whitespace d) eqn:Hd; [exact IH|].
  now intros [= <- _].
Qed.

(** What the fallback corrector returns neither begins nor ends with
    white space. *)
Theorem fallback_trimmed (text out : jsstring) :
  enhancedFallbackCorrections text = Normal out ->
  (forall (c : code_unit) (rest : jsstring),
      out = c :: rest -> JSString.is_whitespace c = false)
  /\ (forall (c : code_unit) (front : jsstring),
         out = front ++ [c] -> JSString.is_whitespace c = false).
Proof.
  intros Hout. apply fallback_stages in Hout.
  destruct Hout as [[_ ->]|(s1 & s5 & _ & _ & _ & ->)].
  { split; [discriminate|]. intros c front H. now destruct front. }
  unfold JSString.trim. split.
  - intros c rest H.
    destruct (trimEnd_prefix (JSString.trimStart s5)) as (l & E).
    rewrite H in E. simpl in E. now apply trimStart_head in E.
  - intros c front H. unfold JSString.trimEnd in H.
    apply (f_equal (@rev code_unit)) in H.
    rewrite rev_involutive, rev_app_distr in H. simpl in H.
    now apply trimStart_head in H.
Qed.

Lemma fallback_trimmed_witness :
  (forall (c : code_unit) (rest : jsstring),
      js "A b c" = c :: rest -> JSString.is_whitespace c = false)
  /\ (forall (c : code_unit) (front : jsstring),
         js "A b c" = front ++ [c] -> JSString.is_whitespace c = false).
Proof.
  apply (@fallback_trimmed
           (js "a  b" ++ [9%N; 160%N; 10%N] ++ js "c ") (js "A b c")).
  vm_compute. reflexivity.
Defined.

(* ================================================================== *)
(** * The capitalisation pass *)
(* ================================================================== *)

(** The capitalisation pass keeps the text character by character, but
    for small letters that it replaces by their capitals: nothing is put
    in, taken out or moved. *)
Theorem capitalisation_keeps_text (input : jsstring) :
  exists out : jsstring,
    replace sentence_start false (ReplaceFunction capitalize) input
    = Normal out
    /\ List.length out = List.length input
    /\ Forall2 same_or_capital out input.
Proof.
  destruct (capitalize_pointwise input) as (out & Hout & HF).
  exists out. repeat split; trivial.
  exact (Forall2_length HF).
Qed.

Lemma matcher_InputStart (input : jsstring) (ignoreCase : bool)
      (x : state) (c : continuation) :
  matcher input ignoreCase InputStart x c
  = if Nat.eqb (endIndex x) 0 then c x else None.
Proof. reflexivity. Qed.

Lemma small_letter_bounds (a : code_unit) :
  lower_case_letter a = true -> (97 <= a <= 122)%N.
Proof.
  unfold lower_case_letter. rewrite andb_true_iff, !N.leb_le. tauto.
Qed.

Lemma capital_not_small (a : code_unit) :
  lower_case_letter a = true ->
  lower_case_letter (JSString.upper_unit a) = false.
Proof.
  intros Ha. unfold JSString.upper_unit.
  change ((97 <=? a)%N && (a <=? 122)%N) with (lower_case_letter a).
  rewrite Ha. apply small_letter_bounds in Ha.
  unfold lower_case_letter. rewrite (proj2 (N.leb_gt 97 (a - 32))) by lia.
  reflexivity.
Qed.

(** A small letter after the white space a text begins with is matched
    from the start of the text. *)
Lemma sentence_start_at_zero (input : jsstring) (a : code_unit) :
  nth_error input (leading_spaces input) = Some a ->
  lower_case_letter a = true ->
  exists y : state,
    match_at input false sentence_start 0 = Some y
    /\ endIndex y = S (leading_spaces input)
    /\ captures y 1 = Some (0, leading_spaces input)
    /\ captures y 2
       = Some (leading_spaces input, S (leading_spaces input)).
Proof.
  intros Ha Hl. unfold match_at, sentence_start.
  rewrite matcher_Seq, matcher_Group, matcher_Alt.
  rewrite matcher_Seq, matcher_InputStart. cbn [endIndex Nat.eqb].
  rewrite matcher_Star, spaces_then; cbn [endIndex captures];
    [|..|lia].
  2:{ intros y b Hb Hws. rewrite matcher_Group, matcher_Class.
      cbn [endIndex]. rewrite Hb.
      destruct (lower_case_letter b) eqn:E; [|reflexivity].
      apply small_letter_bounds in E.
      rewrite letter_not_whitespace in Hws by lia. discriminate. }
  rewrite skipn_O, Nat.add_0_l.
  rewrite matcher_Group, matcher_Class. cbn [endIndex captures].
  rewrite Ha, Hl. cbn [advance endIndex captures].
  eexists. split; [reflexivity|]. cbn. repeat split.
Qed.

Lemma scan_here (input : jsstring) (ignoreCase : bool) (re : regex)
      (n i : nat) (y : state) :
  match_at input ignoreCase re i = Some y ->
  scan input ignoreCase re n i = Some (i, y).
Proof. intros H. destruct n; simpl; now rewrite H. Qed.

(** What [build] returns begins with what was gathered before. *)
Lemma build_begins (v : replaceValue) (input : jsstring)
      (rs : list (nat * state)) :
  forall nextSourcePosition accumulatedResult out,
    build v input rs nextSourcePosition accumulatedResult = Normal out ->
    exists t, out = accumulatedResult ++ t.
Proof.
  induction rs as [|[i y] rs IH]; intros nsp acc out; simpl.
  - intros [= <-]. eauto.
  - destruct (replacement_for v _ _) as [r|]; cbn [bind]; [|discriminate].
    destruct (Nat.leb nsp i).
    + intros H. apply IH in H. destruct H as (t & ->).
      rewrite <- !app_assoc. eauto.
    + apply IH.
Qed.

(** The pass puts the capital in the place of such a letter. *)
Lemma capitalize_first (input out : jsstring) (a : code_unit) :
  nth_error input (leading_spaces input) = Some a ->
  lower_case_letter a = true ->
  replace sentence_start false (ReplaceFunction capitalize) input
  = Normal out ->
  nth_error out (leading_spaces input) = Some (JSString.upper_unit a).
Proof.
  intros Ha Hl.
  destruct (sentence_start_at_zero input Ha Hl) as (y & Hy & He & H1 & H2).
  unfold replace, results. cbn [collect]. unfold exec.
  destruct (Nat.ltb_spec (List.length input) 0) as [|_]; [lia|].
  rewrite (@scan_here input false sentence_start _ 0 y Hy). cbn [build].
  unfold replacement_for, capitalize, capture_string. rewrite H1, H2, He.
  cbn [bind Nat.leb]. intros H. apply build_begins in H.
  destruct H as (t & ->).
  change substring with segment.
  rewrite segment_nil, (@segment_one input _ a Ha), segment_from_start.
  cbn [app JSString.toUpperCase map].
  rewrite <- !app_assoc. cbn [app].
  rewrite nth_error_app2; rewrite length_firstn.
  - assert (leading_spaces input < List.length input)
      by (apply nth_error_Some; congruence).
    replace (leading_spaces input
             - Nat.min (leading_spaces input) (List.length input)) with 0
      by lia.
    reflexivity.
  - lia.
Qed.

Lemma trimStart_skipn (s : jsstring) :
  JSString.trimStart s = skipn (leading_spaces s) s.
Proof.
  induction s as [|c s IH]; [reflexivity|]. simpl.
  now destruct (JSString.is_whitespace c).
Qed.

Lemma leading_spaces_pointwise (out s : jsstring) :
  Forall2 same_or_capital out s -> leading_spaces out = leading_spaces s.
Proof.
  induction 1 as [|a b out s Hab HF IH]; [reflexivity|]. simpl.
  destruct (same_or_capital_space_mark Hab) as (-> & _). now rewrite IH.
Qed.

Lemma Forall2_nth_error_l (A B : Type) (R : A -> B -> Prop)
      (l1 : list A) (l2 : list B) :
  Forall2 R l1 l2 ->
  forall n a, nth_error l1 n = Some a ->
              exists b, nth_error l2 n = Some b /\ R a b.
Proof.
  induction 1 as [|x y l1 l2 Hxy HF IH]; intros [|n] a; simpl;
    try discriminate.
  - intros [= <-]. eauto.
  - apply IH.
Qed.

(** What the fallback corrector returns never begins with a small
    letter. *)
Theorem fallback_no_small_initial (text out : jsstring) :
  enhancedFallbackCorrections text = Normal out ->
  forall (c : code_unit) (rest : jsstring),
    out = c :: rest -> lower_case_letter c = false.
Proof.
  intros Hout c rest Hc. apply fallback_stages in Hout.
  destruct Hout as [[_ ->]|(s1 & s5 & _ & Hs5 & HF & ->)]; [discriminate|].
  destruct (lower_case_letter c) eqn:Hl; [exfalso|reflexivity].
  unfold JSString.trim in Hc.
  destruct (trimEnd_prefix (JSString.trimStart s5)) as (l & E).
  rewrite Hc, trimStart_skipn in E. simpl in E.
  apply skipn_cons_inv in E. destruct E as [E _].
  destruct (Forall2_nth_error_l HF _ E) as (b & Hb & [->|[Hlb ->]]).
  - rewrite (leading_spaces_pointwise HF) in E, Hb.
    rewrite (capitalize_first _ Hb Hl Hs5) in E. injection E as E.
    pose proof (@capital_not_small b Hl) as Hn. rewrite E in Hn.
    congruence.
  - apply capital_not_small in Hlb. congruence.
Qed.

Lemma fallback_no_small_initial_witness :
  enhancedFallbackCorrections (js "   well  , yes !no   ?ok .")
  = Normal (js "Well, yes! No? Ok.")
  /\ forall (c : code_unit) (rest : jsstring),
       js "Well, yes! No? Ok." = c :: rest -> lower_case_letter c = false.
Proof.
  split; [vm_compute; reflexivity|].
  apply (@fallback_no_small_initial
           (js "   well  , yes !no   ?ok .") (js "Well, yes! No? Ok.")).
  vm_compute. reflexivity.
Defined.

(* ================================================================== *)
(** * Every sentence begins with a capital *)
(* ================================================================== *)

(** [build_collect_walk] for a description that holds from an index on. *)
Lemma build_collect_walk_from (re : regex) (ignoreCase : bool)
      (v : replaceValue) (m : jsstring -> option (nat * jsstring))
      (input : jsstring) (l0 : nat) :
  (forall i, l0 <= i <= List.length input ->
     match match_at input ignoreCase re i with
     | Some y =>
         exists k replacement,
           endIndex y = i + S k
           /\ m (skipn i input) = Some (S k, replacement)
           /\ replacement_for v (substring input i (endIndex y))
                (capture_string input y) = Normal replacement
     | None => m (skipn i input) = None
     end) ->
  forall (n l : nat) (acc : jsstring),
    l0 <= l <= List.length input -> List.length input + 2 <= n + l ->
    build v input (collect input ignoreCase re n l) l acc
    = Normal (acc ++ walk m 0 (skipn l input)).
Proof.
  intros Hm. induction n as [|n IH]; intros l acc Hl Hn; [lia|].
  cbn [collect].
  destruct (exec input ignoreCase re l) as [[j y]|] eqn:E.
  - apply exec_some in E. destruct E as (Hj & Hy & Hmatch & Hnone).
    pose proof (Hm j ltac:(lia)) as Hmj. rewrite Hmatch in Hmj.
    destruct Hmj as (k & r & He & Hmk & Hr).
    cbn [build]. rewrite Hr. cbn [bind].
    destruct (Nat.leb_spec l j) as [_|]; [|lia].
    destruct (Nat.eqb_spec (endIndex y) j) as [|_]; [lia|].
    rewrite IH by lia.
    f_equal. rewrite <- !app_assoc. f_equal.
    rewrite (@walk_upto m input l j); [|lia|].
    + rewrite substring_segment. f_equal.
      rewrite He. symmetry. apply walk_matched; [lia | exact Hmk].
    + intros t Ht. pose proof (Hm t ltac:(lia)) as Hmt.
      rewrite Hnone in Hmt by lia. exact Hmt.
  - cbn [build]. f_equal. f_equal.
    rewrite substring_segment, segment_to_end.
    rewrite (@walk_upto m input l (List.length input)); [|lia|].
    + rewrite skipn_all. cbn [walk]. rewrite app_nil_r.
      now rewrite segment_to_end.
    + intros t Ht. pose proof (Hm t ltac:(lia)) as Hmt.
      rewrite (@exec_none input ignoreCase re l E t) in Hmt by lia.
      exact Hmt.
Qed.

Lemma small_not_whitespace (a : code_unit) :
  lower_case_letter a = true -> JSString.is_whitespace a = false.
Proof.
  intros Ha. apply small_letter_bounds in Ha.
  apply letter_not_whitespace. lia.
Qed.

(** The continuation of the first group of the capitalisation pattern
    wants a small letter, which white space is not. *)
Lemma second_group_refuses_space (input : jsstring) (i : nat) :
  forall y a,
    nth_error input (endIndex y) = Some a ->
    JSString.is_whitespace a = true ->
    matcher input false (Group 2 (Class lower_case_letter))
      (mkState (endIndex y) (set_capture 1 (i, endIndex y) (captures y)))
      Some = None.
Proof.
  intros y a Ha Hws. rewrite matcher_Group, matcher_Class.
  cbn [endIndex]. rewrite Ha.
  destruct (lower_case_letter a) eqn:E; [|reflexivity].
  apply small_not_whitespace in E. congruence.
Qed.

(** Where the first alternative of the capitalisation pattern does not
    match, the matches are those of the second. *)
Lemma sentence_start_described (input : jsstring) (i : nat) :
  i <= List.length input ->
  (i = 0 -> forall a, nth_error input (leading_spaces input) = Some a ->
                      lower_case_letter a = false) ->
  match match_at input false sentence_start i with
  | Some y =>
      exists k replacement,
        endIndex y = i + S k
        /\ sentence_start_at (skipn i input) = Some (S k, replacement)
        /\ replacement_for (ReplaceFunction capitalize)
             (substring input i (endIndex y)) (capture_string input y)
           = Normal replacement
  | None => sentence_start_at (skipn i input) = None
  end.
Proof.
  intros Hi H0. unfold match_at, sentence_start.
  rewrite matcher_Seq, matcher_Group, matcher_Alt. cbn [endIndex captures].
  assert (Hfirst :
    matcher input false (Seq InputStart (Star whitespace))
      (mkState i no_captures)
      (fun y => matcher input false (Group 2 (Class lower_case_letter))
                  (mkState (endIndex y)
                     (set_capture 1 (i, endIndex y) (captures y))) Some)
    = None).
  { rewrite matcher_Seq, matcher_InputStart. cbn [endIndex].
    destruct (Nat.eqb_spec i 0) as [->|]; [|reflexivity].
    rewrite matcher_Star, spaces_then; cbn [endIndex captures];
      [|apply second_group_refuses_space|lia].
    rewrite skipn_O, Nat.add_0_l, matcher_Group, matcher_Class.
    cbn [endIndex].
    destruct (nth_error input (leading_spaces input)) as [a|] eqn:Ha;
      [|reflexivity].
    now rewrite (H0 eq_refl a eq_refl). }
  rewrite Hfirst. clear Hfirst H0.
  rewrite matcher_Seq, matcher_Class. cbn [endIndex].
  destruct (nth_error input i) as [p|] eqn:Hp.
  2:{ apply nth_error_None in Hp. now rewrite skipn_all2 by lia. }
  rewrite (@skipn_nth_error _ _ _ _ Hp). cbn [sentence_start_at].
  destruct (one_of (js ".!?") p); [|reflexivity].
  unfold Plus. rewrite matcher_Seq. unfold whitespace at 1.
  rewrite matcher_Class. cbn [advance endIndex captures].
  destruct (nth_error input (S i)) as [b|] eqn:Hb.
  2:{ apply nth_error_None in Hb. now rewrite skipn_all2 by lia. }
  rewrite (@skipn_nth_error _ _ _ _ Hb). cbn [leading_spaces].
  destruct (JSString.is_whitespace b); [|reflexivity].
  rewrite matcher_Star, spaces_then; cbn [advance endIndex captures];
    [|apply second_group_refuses_space|lia].
  set (k := leading_spaces (skipn (S (S i)) input)).
  rewrite matcher_Group, matcher_Class. cbn [endIndex captures].
  change (nth_error (b :: skipn (S (S i)) input) (S k))
    with (nth_error (skipn (S (S i)) input) k).
  rewrite nth_error_skipn.
  destruct (nth_error input (S (S i) + k)) as [a|] eqn:Ha; [|reflexivity].
  destruct (lower_case_letter a); [|reflexivity].
  cbn [advance endIndex captures].
  eexists (S (S k)), _. split; [lia|]. split; [reflexivity|].
  unfold replacement_for, capitalize, capture_string, set_capture.
  cbn [captures Nat.eqb endIndex]. change substring with segment.
  rewrite (@segment_one input _ a Ha). cbn [JSString.toUpperCase map].
  f_equal. rewrite (@segment_cons input i (S (S i) + k) p Hp) by lia.
  rewrite <- app_comm_cons. f_equal. f_equal.
  unfold segment. rewrite (@skipn_nth_error _ _ _ _ Hb).
  f_equal. lia.
Qed.

Lemma collect_step (input : jsstring) (ignoreCase : bool) (re : regex)
      (n lastIndex : nat) :
  collect input ignoreCase re (S n) lastIndex
  = match exec input ignoreCase re lastIndex with
    | None => []
    | Some (i, y) =>
        (i, y) :: collect input ignoreCase re n
                    (if Nat.eqb (endIndex y) i
                     then S (endIndex y) else endIndex y)
    end.
Proof. reflexivity. Qed.

(** The capitalisation pass is the pass from left to right. *)
Lemma replace_capitalized (input : jsstring) :
  replace sentence_start false (ReplaceFunction capitalize) input
  = Normal (capitalized input).
Proof.
  assert (Hno : (forall a, nth_error input (leading_spaces input) = Some a ->
                           lower_case_letter a = false) ->
                replace sentence_start false (ReplaceFunction capitalize) input
                = Normal (walk sentence_start_at 0 input)).
  { intros H0. unfold replace, results.
    rewrite (@build_collect_walk_from sentence_start false
               (ReplaceFunction capitalize) sentence_start_at input 0);
      [reflexivity| |lia|lia].
    intros i Hi. apply sentence_start_described; [lia|]. intros _. exact H0. }
  unfold capitalized.
  destruct (nth_error input (leading_spaces input)) as [a|] eqn:Ha.
  2:{ apply Hno. discriminate. }
  destruct (lower_case_letter a) eqn:Hl.
  2:{ apply Hno. now intros a' [= <-]. }
  clear Hno.
  destruct (sentence_start_at_zero input Ha Hl) as (y & Hy & He & H1 & H2).
  assert (Hlt : leading_spaces input < List.length input)
    by (apply nth_error_Some; congruence).
  assert (Hex : exec input false sentence_start 0 = Some (0, y)).
  { unfold exec.
    destruct (Nat.ltb_spec (List.length input) 0) as [|_]; [lia|].
    apply scan_here. exact Hy. }
  assert (Hr : replacement_for (ReplaceFunction capitalize)
                 (substring input 0 (endIndex y)) (capture_string input y)
               = Normal (firstn (leading_spaces input) input
                           ++ [JSString.upper_unit a])).
  { unfold replacement_for, capitalize, capture_string. rewrite H1, H2.
    change substring with segment.
    now rewrite (@segment_one input _ a Ha), segment_from_start. }
  unfold replace, results. rewrite collect_step, Hex. cbn [build].
  rewrite Hr, He. cbn [bind Nat.leb Nat.eqb].
  rewrite (@build_collect_walk_from sentence_start false
             (ReplaceFunction capitalize) sentence_start_at input
             (S (leading_spaces input))); [| |lia|lia].
  - change substring with segment. rewrite segment_nil.
    cbn [app]. rewrite <- !app_assoc. reflexivity.
  - intros i Hi. apply sentence_start_described; lia.
Qed.

Lemma whitespace_not_punctuation (a : code_unit) :
  JSString.is_whitespace a = true -> one_of (js ".!?") a = false.
Proof.
  unfold JSString.is_whitespace, one_of, code_unit_eqb. simpl. intros H.
  apply not_true_is_false. intros Hw.
  repeat rewrite ?orb_true_iff, ?andb_true_iff, ?N.leb_le, ?N.eqb_eq in *.
  lia.
Qed.

Lemma capital_not_punctuation (a : code_unit) :
  lower_case_letter a = true ->
  one_of (js ".!?") (JSString.upper_unit a) = false.
Proof.
  intros Ha. unfold JSString.upper_unit.
  change ((97 <=? a)%N && (a <=? 122)%N) with (lower_case_letter a).
  rewrite Ha. apply small_letter_bounds in Ha.
  apply letter_not_punctuation. lia.
Qed.

Lemma capital_not_whitespace (a : code_unit) :
  lower_case_letter a = true ->
  JSString.is_whitespace (JSString.upper_unit a) = false.
Proof.
  intros Ha. unfold JSString.upper_unit.
  change ((97 <=? a)%N && (a <=? 122)%N) with (lower_case_letter a).
  rewrite Ha. apply small_letter_bounds in Ha.
  apply letter_not_whitespace. lia.
Qed.

Lemma leading_spaces_run (run rest : jsstring) :
  forallb JSString.is_whitespace run = true ->
  leading_spaces (run ++ rest) = List.length run + leading_spaces rest.
Proof.
  induction run as [|c run IH]; [reflexivity|]. simpl.
  intros H. apply andb_true_iff in H. destruct H as [-> H].
  now rewrite IH.
Qed.

Lemma leading_spaces_prefix (run rest : jsstring) :
  List.length run <= leading_spaces (run ++ rest) ->
  forallb JSString.is_whitespace run = true.
Proof.
  induction run as [|c run IH]; [reflexivity|]. simpl.
  destruct (JSString.is_whitespace c); [|lia].
  intros H. apply IH. lia.
Qed.

(** What [sentence_start_at] finds: a mark, a run of white space and a
    small letter. *)
Lemma sentence_start_at_shape (s : jsstring) (n : nat) (r : jsstring) :
  sentence_start_at s = Some (n, r) ->
  exists p run a rest,
    s = p :: run ++ a :: rest
    /\ one_of (js ".!?") p = true
    /\ run <> []
    /\ forallb JSString.is_whitespace run = true
    /\ lower_case_letter a = true
    /\ n = S (S (List.length run))
    /\ r = p :: run ++ [JSString.upper_unit a].
Proof.
  destruct s as [|p s]; [discriminate|]. cbn [sentence_start_at].
  destruct (one_of (js ".!?") p) eqn:Hp; [|discriminate].
  destruct (leading_spaces s) as [|k] eqn:Hk; [discriminate|].
  destruct (nth_error s (S k)) as [a|] eqn:Ha; [|discriminate].
  destruct (lower_case_letter a) eqn:Hl; [|discriminate].
  intros [= <- <-].
  destruct (nth_error_split s (S k) Ha) as (run & rest & -> & Hlen).
  assert (Hf : firstn (S k) (run ++ a :: rest) = run).
  { rewrite <- Hlen, firstn_app, Nat.sub_diag, firstn_O, app_nil_r.
    apply firstn_all. }
  exists p, run, a, rest. repeat split; trivial.
  - intros ->. discriminate.
  - apply (@leading_spaces_prefix run (a :: rest)). lia.
  - now rewrite Hlen.
  - change (p :: firstn (S k) (run ++ a :: rest) ++ [JSString.upper_unit a]
            = p :: run ++ [JSString.upper_unit a]).
    now rewrite Hf.
Qed.

(** And the other way round. *)
Lemma sentence_start_at_found (p : code_unit) (run : jsstring)
      (a : code_unit) (rest : jsstring) :
  one_of (js ".!?") p = true ->
  run <> [] ->
  forallb JSString.is_whitespace run = true ->
  lower_case_letter a = true ->
  sentence_start_at (p :: run ++ a :: rest)
  = Some (S (S (List.length run)), p :: run ++ [JSString.upper_unit a]).
Proof.
  intros Hp Hrun Hws Ha. cbn [sentence_start_at]. rewrite Hp.
  rewrite (@leading_spaces_run run _ Hws). cbn [leading_spaces].
  rewrite (@small_not_whitespace a Ha), Nat.add_0_r.
  destruct run as [|c run]; [congruence|].
  cbn [List.length].
  change (S (List.length run)) with (List.length (c :: run)).
  rewrite nth_error_app2, Nat.sub_diag by lia. cbn [nth_error].
  rewrite Ha, firstn_app, Nat.sub_diag, firstn_O, app_nil_r, firstn_all.
  reflexivity.
Qed.

(** A text that does not match where its capitalised form begins does
    not match where it begins either. *)
Lemma sentence_start_at_pointwise (out s : jsstring) :
  Forall2 same_or_capital out s ->
  sentence_start_at s = None -> sentence_start_at out = None.
Proof.
  intros HF. destruct HF as [|p' p out s Hp HF]; [reflexivity|].
  cbn [sentence_start_at].
  destruct (same_or_capital_classes Hp) as (-> & _).
  destruct (one_of (js ".!?") p); [|reflexivity].
  rewrite (leading_spaces_pointwise HF).
  destruct (leading_spaces s) as [|k]; [reflexivity|].
  destruct (nth_error out (S k)) as [a'|] eqn:Ha'; [|reflexivity].
  destruct (Forall2_nth_error_l HF _ Ha') as (a & -> & [->|[Hl ->]]).
  - now destruct (lower_case_letter a).
  - now rewrite (@capital_not_small a Hl).
Qed.

Lemma same_or_capital_refl (s : jsstring) : Forall2 same_or_capital s s.
Proof. induction s; constructor; [now left|assumption]. Qed.

Lemma no_small_sentence_after_run (run rest : jsstring) :
  forallb JSString.is_whitespace run = true ->
  no_small_sentence rest -> no_small_sentence (run ++ rest).
Proof.
  induction run as [|c run IH]; [trivial|]. simpl app.
  intros H Hrest. apply andb_true_iff in H. destruct H as [Hc H].
  cbn [no_small_sentence]. split; [|now apply IH].
  cbn [sentence_start_at]. now rewrite (@whitespace_not_punctuation c Hc).
Qed.

(** The pass from left to right changes small letters to capitals and
    leaves no match behind. *)
Lemma walk_sentence_start (n : nat) :
  forall s : jsstring,
    List.length s <= n ->
    Forall2 same_or_capital (walk sentence_start_at 0 s) s
    /\ no_small_sentence (walk sentence_start_at 0 s).
Proof.
  induction n as [|n IH]; intros [|c s] Hn; simpl in Hn;
    try (split; [constructor|exact I]); [lia|].
  cbn [walk].
  destruct (sentence_start_at (c :: s)) as [[k r]|] eqn:E.
  - destruct (sentence_start_at_shape _ E)
      as (p & run & a & rest & [= -> ->] & Hp & Hrun & Hws & Ha & -> & ->).
    cbn [Nat.pred].
    rewrite walk_skip by (rewrite length_app; simpl; lia).
    replace (skipn (S (List.length run)) (run ++ a :: rest)) with rest.
    2:{ rewrite <- (Nat.add_1_l (List.length run)), <- skipn_skipn.
        now rewrite skipn_app, skipn_all, Nat.sub_diag. }
    destruct (IH rest) as (HF & Hfree).
    { rewrite length_app in Hn. simpl in Hn. lia. }
    rewrite <- app_comm_cons, <- app_assoc. cbn [app]. split.
    + constructor; [now left|]. apply Forall2_app.
      * apply same_or_capital_refl.
      * constructor; [now right|exact HF].
    + cbn [no_small_sentence]. split.
      * cbn [sentence_start_at]. rewrite Hp.
        rewrite (@leading_spaces_run run _ Hws). cbn [leading_spaces].
        rewrite (@capital_not_whitespace a Ha), Nat.add_0_r.
        destruct run as [|d run]; [congruence|].
        cbn [List.length].
        change (S (List.length run)) with (List.length (d :: run)).
        rewrite nth_error_app2, Nat.sub_diag by lia. cbn [nth_error].
        now rewrite (@capital_not_small a Ha).
      * apply no_small_sentence_after_run; [exact Hws|].
        cbn [no_small_sentence]. split; [|exact Hfree].
        cbn [sentence_start_at].
        now rewrite (@capital_not_punctuation a Ha).
  - destruct (IH s ltac:(lia)) as (HF & Hfree). split.
    + constructor; [now left|exact HF].
    + cbn [no_small_sentence]. split; [|exact Hfree].
      apply (@sentence_start_at_pointwise _ (c :: s)); [|exact E].
      constructor; [now left|exact HF].
Qed.

Lemma leading_spaces_firstn (s : jsstring) :
  forallb JSString.is_whitespace (firstn (leading_spaces s) s) = true.
Proof.
  induction s as [|c s IH]; [reflexivity|]. simpl.
  destruct (JSString.is_whitespace c) eqn:E; [|reflexivity].
  simpl. now rewrite E.
Qed.

Lemma capitalized_no_small_sentence (s : jsstring) :
  no_small_sentence (capitalized s).
Proof.
  unfold capitalized.
  destruct (nth_error s (leading_spaces s)) as [a|] eqn:Ha;
    [destruct (lower_case_letter a) eqn:Hl|];
    try now apply (@walk_sentence_start (List.length s)).
  apply no_small_sentence_after_run; [apply leading_spaces_firstn|].
  cbn [no_small_sentence]. split.
  - cbn [sentence_start_at].
    now rewrite (@capital_not_punctuation a Hl).
  - now apply (@walk_sentence_start (List.length s)); rewrite length_skipn; lia.
Qed.

Lemma sentence_start_at_app (s rest : jsstring) :
  sentence_start_at (s ++ rest) = None -> sentence_start_at s = None.
Proof.
  intros H. destruct (sentence_start_at s) as [[n r]|] eqn:E; [|reflexivity].
  destruct (sentence_start_at_shape _ E)
    as (p & run & a & post & -> & Hp & Hrun & Hws & Ha & _).
  rewrite <- app_comm_cons, <- app_assoc, <- app_comm_cons in H.
  rewrite (@sentence_start_at_found p run a (post ++ rest) Hp Hrun Hws Ha)
    in H.
  discriminate.
Qed.

Lemma no_small_sentence_app_r (l1 l2 : jsstring) :
  no_small_sentence (l1 ++ l2) -> no_small_sentence l2.
Proof.
  induction l1 as [|c l1 IH]; [trivial|]. simpl. intros [_ H]. now apply IH.
Qed.

Lemma no_small_sentence_app_l (l1 l2 : jsstring) :
  no_small_sentence (l1 ++ l2) -> no_small_sentence l1.
Proof.
  induction l1 as [|c l1 IH]; [intros _; exact I|].
  rewrite <- app_comm_cons. cbn [no_small_sentence]. intros [H1 H2].
  split; [|now apply IH].
  apply (@sentence_start_at_app (c :: l1) l2). exact H1.
Qed.

(** In what the fallback corrector returns, no small letter follows a
    full stop, exclamation mark or question mark and white space. *)
Theorem fallback_sentences_capitalised (text out : jsstring) :
  enhancedFallbackCorrections text = Normal out ->
  forall (pre : jsstring) (p : code_unit) (run : jsstring) (c : code_unit)
         (post : jsstring),
    out = pre ++ p :: run ++ c :: post ->
    one_of (js ".!?") p = true ->
    run <> [] ->
    forallb JSString.is_whitespace run = true ->
    lower_case_letter c = false.
Proof.
  intros Hout pre p run c post E Hp Hrun Hws.
  apply fallback_stages in Hout.
  destruct Hout as [[_ ->]|(s1 & s5 & _ & Hs5 & _ & ->)].
  { destruct pre; discriminate. }
  rewrite replace_capitalized in Hs5. injection Hs5 as <-.
  pose proof (capitalized_no_small_sentence
                (walk whitespace_run_at 0
                   (walk punctuation_then_word_at 0
                      (walk space_before_punctuation_at 0 s1)))) as Hfree.
  destruct (trim_middle
              (capitalized
                 (walk whitespace_run_at 0
                    (walk punctuation_then_word_at 0
                       (walk space_before_punctuation_at 0 s1)))))
    as (l1 & l2 & Hmid).
  rewrite Hmid in Hfree. apply no_small_sentence_app_r in Hfree.
  apply no_small_sentence_app_l in Hfree.
  rewrite E in Hfree. apply no_small_sentence_app_r in Hfree.
  destruct Hfree as [Hnone _].
  destruct (lower_case_letter c) eqn:Hl; [|reflexivity].
  rewrite (@sentence_start_at_found p run c post Hp Hrun Hws Hl) in Hnone.
  discriminate.
Qed.

Lemma fallback_sentences_capitalised_witness :
  enhancedFallbackCorrections (js "i came .i saw!   then i left ?fine")
  = Normal (js "I came. I saw! Then I left? Fine")
  /\ lower_case_letter 84%N = false.
Proof.
  split; [vm_compute; reflexivity|].
  apply (@fallback_sentences_capitalised
           (js "i came .i saw!   then i left ?fine")
           (js "I came. I saw! Then I left? Fine")
           (eq_refl : enhancedFallbackCorrections
                        (js "i came .i saw!   then i left ?fine")
                      = Normal (js "I came. I saw! Then I left? Fine"))
           (js "I came. I saw") 33%N (js " ") 84%N (js "hen I left? Fine"));
    [vm_compute; reflexivity | vm_compute; reflexivity | discriminate
    | vm_compute; reflexivity].
Defined.
